(** * vidbeamer: the ephemeral upload store of [server.ts]

    A shallow embedding of the Express server ([src/server.ts]) and of the
    upload guard of the browser client ([handleFile]), followed by the
    theorems that settle the specification's claims against them.

    Conventions.
    - JavaScript strings are [string]s; the loops of Node's [path] module run
      over their characters ([list ascii]).
    - Millisecond clocks ([Date.now()], [stats.mtimeMs]) are integers [Z].
    - The file system is a finite map from absolute POSIX paths to files.
    - Node callbacks that receive [(err, value)] are modelled by sums. *)

From Stdlib Require Import ZArith Ascii String Lia.
From stdpp Require Import base option list gmap strings.

Open Scope Z_scope.

(** ** Node's [path] module (POSIX flavour)

    [server.ts] calls [path.join] and [path.extname]. They are functions of
    the Node runtime; the definitions below follow Node's [path.posix]
    implementation. *)
Module Path.

Definition CHAR_FORWARD_SLASH : ascii := "/"%char.
Definition CHAR_DOT : ascii := "."%char.

Definition chars (s : string) : list ascii := list_ascii_of_string s.
Definition str (cs : list ascii) : string := string_of_list_ascii cs.

(** [path.slice(from, to)] on the character list. *)
Definition slice (cs : list ascii) (from to : Z) : list ascii :=
  take (Z.to_nat (to - from)) (drop (Z.to_nat from) cs).

(** *** [path.extname] *)

(** The local variables of [extname]'s loop. *)
Record ExtState := mkExt {
  startDot : Z;
  startPart : Z;
  end_ : Z;
  matchedSlash : bool;
  preDotState : Z
}.

Definition ext_init : ExtState :=
  {| startDot := -1; startPart := 0; end_ := -1;
     matchedSlash := true; preDotState := 0 |}.

(** The part of the loop body that runs for a character other than '/'. *)
Definition ext_char (code : ascii) (i : Z) (st : ExtState) : ExtState :=
  let st1 :=
    if end_ st =? -1
    then {| startDot := startDot st; startPart := startPart st;
            end_ := i + 1; matchedSlash := false;
            preDotState := preDotState st |}
    else st in
  if Ascii.eqb code CHAR_DOT then
    if startDot st1 =? -1
    then {| startDot := i; startPart := startPart st1; end_ := end_ st1;
            matchedSlash := matchedSlash st1; preDotState := preDotState st1 |}
    else if negb (preDotState st1 =? 1)
    then {| startDot := startDot st1; startPart := startPart st1;
            end_ := end_ st1; matchedSlash := matchedSlash st1;
            preDotState := 1 |}
    else st1
  else if negb (startDot st1 =? -1)
  then {| startDot := startDot st1; startPart := startPart st1;
          end_ := end_ st1; matchedSlash := matchedSlash st1;
          preDotState := -1 |}
  else st1.

(** [for (let i = path.length - 1; i >= 0; --i)]: [rcs] holds the characters
    at indices [i], [i-1], ..., [0] in that order. *)
Fixpoint ext_loop (rcs : list ascii) (i : Z) (st : ExtState) : ExtState :=
  match rcs with
  | [] => st
  | code :: rest =>
      if Ascii.eqb code CHAR_FORWARD_SLASH then
        if negb (matchedSlash st)
        then (* startPart = i + 1; break *)
             {| startDot := startDot st; startPart := i + 1;
                end_ := end_ st; matchedSlash := matchedSlash st;
                preDotState := preDotState st |}
        else (* continue *) ext_loop rest (i - 1) st
      else ext_loop rest (i - 1) (ext_char code i st)
  end.

(** The test after the loop: no extension in these cases. *)
Definition ext_none (st : ExtState) : bool :=
  (startDot st =? -1) || (end_ st =? -1) || (preDotState st =? 0)
  || ((preDotState st =? 1) && (startDot st =? end_ st - 1)
      && (startDot st =? startPart st + 1)).

Definition extname_chars (cs : list ascii) : list ascii :=
  let st := ext_loop (rev cs) (Z.of_nat (length cs) - 1) ext_init in
  if ext_none st then [] else slice cs (startDot st) (end_ st).

Definition extname (path : string) : string := str (extname_chars (chars path)).

(** *** [path.normalize] and [path.join] *)

(** [path.split('/')]: the segments between separators. *)
Fixpoint split_slash (cs : list ascii) : list (list ascii) :=
  match cs with
  | [] => [[]]
  | c :: rest =>
      if Ascii.eqb c CHAR_FORWARD_SLASH then [] :: split_slash rest
      else match split_slash rest with
           | seg :: segs => (c :: seg) :: segs
           | [] => [[c]]
           end
  end.

Definition is_dot (seg : list ascii) : bool :=
  bool_decide (seg = [CHAR_DOT]).
Definition is_dotdot (seg : list ascii) : bool :=
  bool_decide (seg = [CHAR_DOT; CHAR_DOT]).

(** One segment of [normalizeString]; [res] is the result so far, last
    segment first. Empty and "." segments are dropped; ".." removes the last
    segment, unless there is none or it is ".." itself, in which case ".." is
    kept only when [allowAboveRoot]. *)
Definition normalize_seg (allowAboveRoot : bool)
    (res : list (list ascii)) (seg : list ascii) : list (list ascii) :=
  if bool_decide (seg = []) || is_dot seg then res
  else if is_dotdot seg then
    match res with
    | last :: before =>
        if is_dotdot last
        then (if allowAboveRoot then seg :: res else res)
        else before
    | [] => if allowAboveRoot then [seg] else []
    end
  else seg :: res.

Definition normalizeSegments (allowAboveRoot : bool)
    (segs : list (list ascii)) : list (list ascii) :=
  rev (fold_left (normalize_seg allowAboveRoot) segs []).

Fixpoint join_segments (segs : list (list ascii)) : list ascii :=
  match segs with
  | [] => []
  | [seg] => seg
  | seg :: rest => seg ++ CHAR_FORWARD_SLASH :: join_segments rest
  end.

Definition normalizeString (cs : list ascii) (allowAboveRoot : bool)
    : list ascii :=
  join_segments (normalizeSegments allowAboveRoot (split_slash cs)).

Definition normalize_chars (cs : list ascii) : list ascii :=
  match cs with
  | [] => [CHAR_DOT]
  | first :: _ =>
      let isAbsolute := Ascii.eqb first CHAR_FORWARD_SLASH in
      let trailingSeparator :=
        bool_decide (last cs = Some CHAR_FORWARD_SLASH) in
      let res := normalizeString cs (negb isAbsolute) in
      match res with
      | [] =>
          if isAbsolute then [CHAR_FORWARD_SLASH]
          else if trailingSeparator then [CHAR_DOT; CHAR_FORWARD_SLASH]
          else [CHAR_DOT]
      | _ =>
          let res' :=
            if trailingSeparator then res ++ [CHAR_FORWARD_SLASH] else res in
          if isAbsolute then CHAR_FORWARD_SLASH :: res' else res'
      end
  end.

Definition normalize (path : string) : string := str (normalize_chars (chars path)).

(** [path.join(...args)]: the non-empty arguments, joined by '/', then
    normalized; "." when nothing is left. *)
Definition join (args : list string) : string :=
  match filter (fun a => a ≠ "") args with
  | [] => "."
  | first :: rest =>
      normalize (fold_left (fun joined arg => joined +:+ "/" +:+ arg) rest first)
  end.

End Path.

(** JavaScript's [a || b] on strings: the empty string is falsy. *)
Definition js_or (a b : string) : string := if decide (a = "") then b else a.

(** [s.startsWith(p)]. *)
Definition startsWith (s p : string) : bool := String.prefix p s.

(** ** The runtime environment: file system, console, HTTP responses *)

(** [err.code] of a failed [fs] call. *)
Inductive ErrnoException := ENOENT | EACCES | EPERM | EBUSY.

(** A file on disk, with the creation and last-modification times that
    [fs.Stats] reports. [stat_err] and [unlink_err] record the error
    (permission and the like) that the operating system answers to [fs.stat]
    and [fs.unlink] on this file, if any. *)
Record File := mkFile {
  birthtimeMs : Z;
  mtimeMs : Z;
  stat_err : option ErrnoException;
  unlink_err : option ErrnoException
}.

(** The process' view of the world: files by absolute path, and the lines
    written by [console.log] / [console.error], oldest first. *)
Record World := mkWorld {
  disk : gmap string File;
  console : list string
}.

Definition console_log (line : string) (w : World) : World :=
  {| disk := disk w; console := console w ++ [line] |}.

Definition console_error (line : string) (w : World) : World :=
  {| disk := disk w; console := console w ++ [line] |}.

(** [fs.existsSync(path)]. *)
Definition fs_existsSync (w : World) (path : string) : bool :=
  bool_decide (is_Some (disk w !! path)).

(** [fs.stat(path, (err, stats) => ...)]: the arguments of the callback, with
    [stats.mtimeMs] for [stats]. *)
Definition fs_stat (w : World) (path : string) : ErrnoException + Z :=
  match disk w !! path with
  | None => inl ENOENT
  | Some f => match stat_err f with
              | Some e => inl e
              | None => inr (mtimeMs f)
              end
  end.

(** [fs.unlink(path, (err) => ...)]: the argument of the callback and the
    world afterwards. *)
Definition fs_unlink (w : World) (path : string)
    : option ErrnoException * World :=
  match disk w !! path with
  | None => (Some ENOENT, w)
  | Some f => match unlink_err f with
              | Some e => (Some e, w)
              | None => (None, {| disk := delete path (disk w);
                                  console := console w |})
              end
  end.

(** The two HTML documents of [GET /v/:id]; their markup is left out. *)
Inductive Page :=
| ExpiredPage
| ViewerPage (videoUrl : string).

Inductive Body :=
| Html (page : Page)
| Json (fields : list (string * string)).

Record Response := mkResponse { status : Z; body : Body }.

(** ** [server.ts] *)

(** [const uploadDir = path.join(process.cwd(), "uploads")]. *)
Definition uploadDir (cwd : string) : string := Path.join [cwd; "uploads"].

Definition CLEANUP_INTERVAL : Z := 15 * 60 * 1000.
Definition MAX_AGE : Z := 60 * 60 * 1000.

(** *** Auto-cleanup (lines 22-41) *)

(** The body of [files.forEach(file => ...)] with its [fs.stat] and
    [fs.unlink] callbacks. Node runs the callbacks of the entries interleaved;
    each of them touches the path of its own entry only, and here they run
    entry by entry ([cleanup_disk_order] below: the order is immaterial). *)
Definition cleanup_file (cwd : string) (now : Z) (w : World) (file : string)
    : World :=
  let filePath := Path.join [uploadDir cwd; file] in
  match fs_stat w filePath with
  | inl err => w
  | inr stats_mtimeMs =>
      if now - stats_mtimeMs >? MAX_AGE then
        match fs_unlink w filePath with
        | (None, w') =>
            console_log ("[Cleanup] Deleted expired file: " +:+ file) w'
        | (Some err, w') => w'
        end
      else w
  end.

(** The callback of [fs.readdir(uploadDir, (err, files) => ...)]; [now] is
    the value [Date.now()] returns inside it. *)
Definition cleanup (cwd : string) (now : Z)
    (readdir : ErrnoException + list string) (w : World) : World :=
  match readdir with
  | inl err => console_error "Cleanup read error:" w
  | inr files => fold_left (cleanup_file cwd now) files w
  end.

(** [setInterval(..., CLEANUP_INTERVAL)] armed at time [start]: the nominal
    time of the sweep number [k] (counted from 0). *)
Definition sweep_time (start : Z) (k : nat) : Z :=
  start + (Z.of_nat k + 1) * CLEANUP_INTERVAL.

(** *** Upload storage (lines 44-57) *)

(** What multer knows of an incoming file part when it calls the storage
    callbacks. *)
Record IncomingFile := mkIncoming {
  fieldname : string;
  originalname : string;
  mimetype : string
}.

(** [destination: function (req, file, cb) { cb(null, uploadDir) }]. *)
Definition storage_destination (cwd : string) (file : IncomingFile) : string :=
  uploadDir cwd.

(** [filename: function (req, file, cb)]; [uuid] is the value returned by
    this call of [uuidv4()]. *)
Definition storage_filename (uuid : string) (file : IncomingFile) : string :=
  let ext := js_or (Path.extname (originalname file)) ".mp4" in
  uuid +:+ ext.

(** [limits: { fileSize: 500 * 1024 * 1024 }]. *)
Definition limits_fileSize : Z := 500 * 1024 * 1024.

(** The codes of [multer.MulterError]. *)
Inductive MulterErrorCode :=
| LIMIT_PART_COUNT | LIMIT_FILE_SIZE | LIMIT_FILE_COUNT | LIMIT_FIELD_KEY
| LIMIT_FIELD_VALUE | LIMIT_FIELD_COUNT | LIMIT_UNEXPECTED_FILE
| MISSING_FIELD_NAME.

(** The [err] handed to the callback of [upload.single("video")]. *)
Inductive UploadError :=
| MulterError (code : MulterErrorCode) (message : string)
| OtherError (message : string).

(** [req.file] as the disk storage engine fills it in. *)
Record MulterFile := mkMulterFile {
  file_info : IncomingFile;
  destination : string;
  filename : string;
  path : string
}.

(** What multer finds in the request body: it gives up with an error (a file
    over [limits.fileSize], another limit, a body it cannot parse, a storage
    failure), or there is no file part, or there is one file part within the
    limits. *)
Inductive Parsed :=
| ParseError (err : UploadError)
| ParseNoFile
| ParseFile (file : IncomingFile).

(** [upload.single("video")(req, res, cb)] with the disk storage configured
    above: the [err] given to [cb], [req.file], and the world afterwards.
    A file part of another field is refused as unexpected. No [fileFilter]
    is configured, so every file part of the field "video" goes to the
    storage engine, which writes it at [path.join(destination, filename)];
    [now] is the time of the write. *)
Definition upload_single (cwd uuid : string) (now : Z) (p : Parsed) (w : World)
    : option UploadError * option MulterFile * World :=
  match p with
  | ParseError err => (Some err, None, w)
  | ParseNoFile => (None, None, w)
  | ParseFile file =>
      if decide (fieldname file = "video") then
        let dest := storage_destination cwd file in
        let name := storage_filename uuid file in
        let finalPath := Path.join [dest; name] in
        let stored := {| birthtimeMs := now; mtimeMs := now;
                         stat_err := None; unlink_err := None |} in
        (None,
         Some {| file_info := file; destination := dest; filename := name;
                 path := finalPath |},
         {| disk := <[finalPath := stored]> (disk w); console := console w |})
      else
        (Some (MulterError LIMIT_UNEXPECTED_FILE "Unexpected field"), None, w)
  end.

(** *** [POST /api/upload] (lines 161-183) *)

(** The callback given to [upload.single("video")]: [Some] response, or
    [None] for [next()]. *)
Definition upload_callback (err : option UploadError) : option Response :=
  match err with
  | Some (MulterError LIMIT_FILE_SIZE _) =>
      Some {| status := 413;
              body := Json [("error", "File is too large. Maximum size is 500MB.")] |}
  | Some (MulterError _ message) =>
      Some {| status := 400; body := Json [("error", message)] |}
  | Some (OtherError _) =>
      Some {| status := 500;
              body := Json [("error", "An unknown error occurred during upload.")] |}
  | None => None
  end.

(** The second handler of the route. *)
Definition upload_respond (file : option MulterFile) : Response :=
  match file with
  | None =>
      {| status := 400; body := Json [("error", "No video file provided")] |}
  | Some f =>
      {| status := 200;
         body := Json [("url", "/v/" +:+ filename f); ("filename", filename f)] |}
  end.

Definition post_api_upload (cwd uuid : string) (now : Z) (p : Parsed)
    (w : World) : Response * World :=
  let '(err, file, w') := upload_single cwd uuid now p w in
  match upload_callback err with
  | Some response => (response, w')
  | None => (upload_respond file, w')
  end.

(** *** [GET /v/:id] (lines 63-158) *)

Definition get_v_filePath (cwd id : string) : string :=
  Path.join [uploadDir cwd; id].

Definition get_v (cwd : string) (w : World) (id : string) : Response :=
  let filePath := get_v_filePath cwd id in
  if negb (fs_existsSync w filePath) then
    {| status := 404; body := Html ExpiredPage |}
  else
    let videoUrl := "/uploads/" +:+ id in
    {| status := 200; body := Html (ViewerPage videoUrl) |}.

(** A path lies within directory [root] when it is [root] itself or starts
    with [root] followed by a separator. *)
Definition within (root p : string) : bool :=
  String.eqb p root || String.prefix (root +:+ "/") p.

(** ** The browser client: the guard of [handleFile] *)

Record BrowserFile := mkBrowserFile {
  file_type : string;
  file_size : Z;
  file_name : string
}.

(** What [handleFile] does with a file: show an error and return, or go on
    to [fetch('/api/upload', ...)]. *)
Inductive HandleFile :=
| SetError (message : string)
| PostUpload (file : BrowserFile).

Definition handleFile (file : BrowserFile) : HandleFile :=
  if negb (startsWith (file_type file) "video/") then
    SetError "Please upload a valid video file (MP4, WebM, MOV, etc)."
  else if file_size file >? 500 * 1024 * 1024 then
    SetError "File is too large. Maximum size is 500MB."
  else PostUpload file.

(** [s.indexOf(needle)]: the first index at which [needle] occurs in [s], or
    -1; [indexOf_from] carries the index of the first character of [s]. *)
Fixpoint indexOf_from (s needle : string) (i : Z) : Z :=
  if String.prefix needle s then i
  else match s with
       | EmptyString => -1
       | String _ rest => indexOf_from rest needle (i + 1)
       end.

Definition indexOf (s needle : string) : Z := indexOf_from s needle 0.

(** An entry of [e.clipboardData.items]: its [type] and what [getAsFile()]
    returns. *)
Record ClipboardItem := mkClipboardItem {
  item_type : string;
  item_file : option BrowserFile
}.

(** The loop of [onPaste]: the first item whose type mentions "video" and
    that yields a file goes to [handleFile], and the loop breaks. *)
Fixpoint onPaste_loop (items : list ClipboardItem) : option HandleFile :=
  match items with
  | [] => None
  | item :: rest =>
      if negb (indexOf (item_type item) "video" =? -1) then
        match item_file item with
        | Some file => Some (handleFile file)
        | None => onPaste_loop rest
        end
      else onPaste_loop rest
  end.

(** [onPaste]; [items] is [e.clipboardData?.items], absent without clipboard
    data. *)
Definition onPaste (items : option (list ClipboardItem)) : option HandleFile :=
  match items with
  | None => None
  | Some items => onPaste_loop items
  end.

(** The React state of [App] that [handleFile] writes. *)
Record AppState := mkAppState {
  uploading : bool;
  videoUrl : option string;
  error : option string;
  copied : bool
}.

(** How the [try] block of [handleFile] ends up with the server's answer:
    [fetch] or [response.json()] throws an error with a message, or the
    answer has a status and a JSON object of string fields. *)
Inductive FetchResult :=
| FetchRejected (message : string)
| FetchJson (response_status : Z) (data : list (string * string)).

(** [data.key]: [None] stands for [undefined]. *)
Fixpoint json_get (key : string) (data : list (string * string))
    : option string :=
  match data with
  | [] => None
  | (k, v) :: rest => if decide (k = key) then Some v else json_get key rest
  end.

(** [value || fallback] for a string that may be [undefined]. *)
Definition js_or_undefined (value : option string) (fallback : string)
    : string :=
  match value with
  | Some v => js_or v fallback
  | None => fallback
  end.

(** A string that may be [undefined] inside a template literal. *)
Definition js_template (value : option string) : string :=
  match value with
  | Some v => v
  | None => "undefined"
  end.

(** [response.ok]. *)
Definition response_ok (response_status : Z) : bool :=
  (200 <=? response_status) && (response_status <=? 299).

(** The [catch] block of [handleFile]. *)
Definition handleFile_catch (message : string) (st : AppState) : AppState :=
  {| uploading := uploading st; videoUrl := videoUrl st;
     error := Some (js_or message "Failed to upload video. Please try again.");
     copied := copied st |}.

(** [handleFile] from the guard to the [finally] block; [origin] is
    [window.location.origin] and [fetched] what the request comes to. *)
Definition handleFile_run (origin : string) (file : BrowserFile)
    (fetched : FetchResult) (st : AppState) : AppState :=
  match handleFile file with
  | SetError message =>
      {| uploading := uploading st; videoUrl := videoUrl st;
         error := Some message; copied := copied st |}
  | PostUpload _ =>
      let st1 := {| uploading := true; videoUrl := None; error := None;
                    copied := false |} in
      let st2 :=
        match fetched with
        | FetchRejected message => handleFile_catch message st1
        | FetchJson response_status data =>
            if negb (response_ok response_status) then
              handleFile_catch
                (js_or_undefined (json_get "error" data) "Upload failed") st1
            else
              let fullUrl := origin +:+ js_template (json_get "url" data) in
              {| uploading := uploading st1; videoUrl := Some fullUrl;
                 error := error st1; copied := copied st1 |}
        end in
      {| uploading := false; videoUrl := videoUrl st2; error := error st2;
         copied := copied st2 |}
  end.

(** ** Runs of the server *)

(** The path a sweep computes for the directory entry [file]. *)
Definition entry_path (cwd file : string) : string :=
  Path.join [uploadDir cwd; file].

(** A character that is neither '.' nor '/'. *)
Definition plain_char (c : ascii) : Prop :=
  c ≠ Path.CHAR_DOT ∧ c ≠ Path.CHAR_FORWARD_SLASH.

(** A directory entry name: not empty, not "." or "..", and free of '/'. *)
Definition plain_segment (seg : list ascii) : Prop :=
  seg ≠ [] ∧ seg ≠ [Path.CHAR_DOT] ∧ seg ≠ [Path.CHAR_DOT; Path.CHAR_DOT]
  ∧ Path.CHAR_FORWARD_SLASH ∉ seg.

(** The absolute path with the given segments. *)
Definition absolute_path (segs : list (list ascii)) : string :=
  Path.str (Path.CHAR_FORWARD_SLASH :: Path.join_segments segs).

(** A file is reaped at [now] when [fs.stat] answers, its age exceeds
    [MAX_AGE], and [fs.unlink] answers. *)
Definition reaped (now : Z) (f : File) : bool :=
  bool_decide (stat_err f = None) && (now - mtimeMs f >? MAX_AGE)
  && bool_decide (unlink_err f = None).

Inductive Event :=
| Sweep (now : Z) (readdir : ErrnoException + list string)
| Upload (uuid : string) (now : Z) (p : Parsed)
| View (id : string).

Definition step (cwd : string) (w : World) (e : Event) : World :=
  match e with
  | Sweep now readdir => cleanup cwd now readdir w
  | Upload uuid now p => snd (post_api_upload cwd uuid now p w)
  | View id => w
  end.

Definition run (cwd : string) (w : World) (es : list Event) : World :=
  fold_left (step cwd) es w.

(** The event is not a sweep started after time [t]. *)
Definition sweep_by (t : Z) (e : Event) : Prop :=
  match e with
  | Sweep now _ => now ≤ t
  | _ => True
  end.

(** The event is not an upload stored at path [p] (uuids do not repeat). *)
Definition uploads_elsewhere (cwd p : string) (e : Event) : Prop :=
  match e with
  | Upload uuid _ (ParseFile file) =>
      entry_path cwd (storage_filename uuid file) ≠ p
  | _ => True
  end.

(** A uuid as [uuidv4()] returns them: not empty, made of characters that
    are neither dots nor separators. *)
Definition plain_uuid (uuid : string) : Prop :=
  uuid ≠ "" ∧ Forall plain_char (Path.chars uuid).

(** The event carries only plain names: the uuid of an upload, the entries
    that [readdir] lists for a sweep. *)
Definition event_plain (e : Event) : Prop :=
  match e with
  | Upload uuid _ _ => plain_uuid uuid
  | Sweep _ (inr files) => Forall (λ file, plain_segment (Path.chars file)) files
  | _ => True
  end.


(** A clipboard item that [onPaste] hands to [handleFile]. *)
Definition paste_candidate (item : ClipboardItem) : Prop :=
  indexOf (item_type item) "video" ≠ -1 ∧ is_Some (item_file item).

(** *** Vocabulary for the loop of [path.extname] *)

(** The characters of the last path component met so far: those at the
    indices from [k] up to [end], where [suf] holds the characters from
    index [k] on. *)
Definition ext_seen (k : nat) (suf : list ascii) (st : Path.ExtState)
    : list ascii :=
  take (Z.to_nat (Path.end_ st) - k) suf.

(** What the loop of [extname] keeps true before it reads index [k - 1]. *)
Definition ext_inv (k : nat) (suf : list ascii) (st : Path.ExtState) : Prop :=
  (Path.end_ st = -1 ∧ Path.startDot st = -1 ∧ Path.matchedSlash st = true)
  ∨ (Path.matchedSlash st = false
     ∧ Z.of_nat k ≤ Path.end_ st
     ∧ (Path.CHAR_FORWARD_SLASH ∉ ext_seen k suf st)
     ∧ ((Path.startDot st = -1 ∧ Path.CHAR_DOT ∉ ext_seen k suf st)
        ∨ ((Z.of_nat k ≤ Path.startDot st < Path.end_ st)
           ∧ ∃ e, drop (Z.to_nat (Path.startDot st) - k) (ext_seen k suf st)
                  = Path.CHAR_DOT :: e
                  ∧ Path.CHAR_DOT ∉ e))).

(** What the marks left by the loop delimit: a dot followed by characters
    that are neither dots nor separators. *)
Definition ext_result (cs : list ascii) (st : Path.ExtState) : Prop :=
  Path.startDot st = -1 ∨ Path.end_ st = -1
  ∨ ∃ e, Path.slice cs (Path.startDot st) (Path.end_ st) = Path.CHAR_DOT :: e
         ∧ Forall plain_char e.

Example extname_mp4 : Path.extname "holiday.clip.MOV" = ".MOV".
Proof. reflexivity. Qed.
Example extname_none : Path.extname "holiday" = "".
Proof. reflexivity. Qed.
Example extname_hidden : Path.extname ".bashrc" = "".
Proof. reflexivity. Qed.
Example extname_trailing_dot : Path.extname "holiday." = ".".
Proof. reflexivity. Qed.
Example extname_dotdot : Path.extname ".." = "".
Proof. reflexivity. Qed.
Example extname_dir : Path.extname "a.b/c" = "".
Proof. reflexivity. Qed.
Example extname_trailing_slash : Path.extname "a/b.txt//" = ".txt".
Proof. reflexivity. Qed.
Example join_plain : Path.join ["/srv/app"; "uploads"] = "/srv/app/uploads".
Proof. reflexivity. Qed.
Example join_up : Path.join ["/srv/app/uploads"; "../../etc/passwd"] = "/srv/etc/passwd".
Proof. reflexivity. Qed.
Example join_rel : Path.join ["a/../../b/"; "./c//d/"] = "../b/c/d/".
Proof. reflexivity. Qed.
Example join_root : Path.join ["/a"; "../../.."] = "/".
Proof. reflexivity. Qed.

(** * Properties *)

(** ** [path.extname] *)

Lemma chars_app (a b : string) :
  Path.chars (a +:+ b) = Path.chars a ++ Path.chars b.
Proof.
  unfold Path.chars. induction a as [|c a IH]; simpl; [done|]. by rewrite IH.
Qed.

Lemma str_chars (s : string) : Path.str (Path.chars s) = s.
Proof. apply string_of_list_ascii_of_string. Qed.

Lemma chars_str (cs : list ascii) : Path.chars (Path.str cs) = cs.
Proof. apply list_ascii_of_string_of_list_ascii. Qed.

(** A character other than '.' leaves [startDot] alone. *)
Lemma ext_loop_no_dot rcs : ∀ i st,
  Forall (λ c, c ≠ Path.CHAR_DOT) rcs →
  Path.startDot st = -1 →
  Path.startDot (Path.ext_loop rcs i st) = -1.
Proof.
  induction rcs as [|c rcs IH]; intros i st Hall Hst; simpl; [done|].
  inversion Hall as [|? ? Hc Hrest]; subst.
  destruct (Ascii.eqb c Path.CHAR_FORWARD_SLASH).
  - destruct (negb (Path.matchedSlash st)); simpl; auto.
  - apply IH; [done|]. unfold Path.ext_char.
    apply Ascii.eqb_neq in Hc. rewrite Hc.
    destruct (Path.end_ st =? -1); simpl; rewrite Hst; done.
Qed.

(** Once the end of the name is marked and no dot was met, plain characters
    do not change the state. *)
Lemma ext_loop_plain l rest : ∀ i st,
  Forall plain_char l →
  Path.startDot st = -1 → Path.end_ st ≠ -1 →
  Path.ext_loop (l ++ rest) i st
  = Path.ext_loop rest (i - Z.of_nat (length l)) st.
Proof.
  induction l as [|c l IH]; intros i st Hall Hsd Hend; simpl.
  - f_equal. lia.
  - inversion Hall as [|? ? [Hdot Hslash] Hrest]; subst.
    apply Ascii.eqb_neq in Hdot, Hslash. rewrite Hslash.
    assert (Path.ext_char c i st = st) as ->.
    { unfold Path.ext_char. apply Z.eqb_neq in Hend. rewrite Hend, Hdot, Hsd.
      done. }
    rewrite IH by done. f_equal. lia.
Qed.

(** After the dot and one more character of the same component, the loop
    keeps [startDot] and [end], and [preDotState] stays away from 0. *)
Lemma ext_loop_settled rcs : ∀ i st,
  Path.startDot st ≠ -1 → Path.end_ st ≠ -1 → Path.preDotState st ≠ 0 →
  let st' := Path.ext_loop rcs i st in
  Path.startDot st' = Path.startDot st ∧ Path.end_ st' = Path.end_ st
  ∧ Path.preDotState st' ≠ 0.
Proof.
  induction rcs as [|c rcs IH]; intros i st Hsd Hend Hpre; simpl; [done|].
  destruct (Ascii.eqb c Path.CHAR_FORWARD_SLASH).
  - destruct (negb (Path.matchedSlash st)); simpl; auto.
  - assert (Path.startDot (Path.ext_char c i st) = Path.startDot st
            ∧ Path.end_ (Path.ext_char c i st) = Path.end_ st
            ∧ Path.preDotState (Path.ext_char c i st) ≠ 0) as (E1 & E2 & E3).
    { unfold Path.ext_char.
      apply Z.eqb_neq in Hsd, Hend. rewrite Hend, Hsd. simpl.
      destruct (Ascii.eqb c Path.CHAR_DOT);
        [destruct (Path.preDotState st =? 1)|]; simpl; auto. }
    specialize (IH (i - 1) (Path.ext_char c i st)).
    rewrite E1, E2 in IH. apply IH; done.
Qed.

Lemma extname_chars_no_dot cs :
  Forall (λ c, c ≠ Path.CHAR_DOT) cs → Path.extname_chars cs = [].
Proof.
  intros Hall. unfold Path.extname_chars.
  assert (Path.startDot
            (Path.ext_loop (rev cs) (Z.of_nat (length cs) - 1) Path.ext_init)
          = -1) as Hsd.
  { apply ext_loop_no_dot; [|done]. by apply Forall_rev. }
  unfold Path.ext_none. rewrite Hsd. done.
Qed.

Lemma ext_char_first d i :
  plain_char d →
  Path.ext_char d i Path.ext_init = Path.mkExt (-1) 0 (i + 1) false 0.
Proof.
  intros [Hdot _]. apply Ascii.eqb_neq in Hdot.
  unfold Path.ext_char. simpl. by rewrite Hdot.
Qed.

Lemma ext_char_dot i en :
  en ≠ -1 →
  Path.ext_char Path.CHAR_DOT i (Path.mkExt (-1) 0 en false 0)
  = Path.mkExt i 0 en false 0.
Proof.
  intros Hen. apply Z.eqb_neq in Hen.
  unfold Path.ext_char. simpl. by rewrite Hen.
Qed.

Lemma ext_char_after c i sd en :
  sd ≠ -1 → en ≠ -1 →
  ∃ p, p ≠ 0 ∧ Path.ext_char c i (Path.mkExt sd 0 en false 0)
               = Path.mkExt sd 0 en false p.
Proof.
  intros Hsd Hen. apply Z.eqb_neq in Hsd, Hen.
  unfold Path.ext_char. simpl. rewrite Hen. simpl. rewrite Hsd. simpl.
  destruct (Ascii.eqb c Path.CHAR_DOT); [by exists 1 | by exists (-1)].
Qed.

(** The state in which the loop ends on [stem c . e d]. *)
Lemma ext_loop_suffix (stem e : list ascii) (c d : ascii) (n : Z) :
  c ≠ Path.CHAR_FORWARD_SLASH → plain_char d → Forall plain_char e →
  Z.of_nat (length e) + 2 ≤ n →
  let st := Path.ext_loop (d :: rev e ++ Path.CHAR_DOT :: c :: rev stem)
              (n - 1) Path.ext_init in
  Path.startDot st = n - 2 - Z.of_nat (length e) ∧ Path.end_ st = n
  ∧ Path.preDotState st ≠ 0.
Proof.
  intros Hc Hd He Hn.
  cbn [Path.ext_loop].
  destruct Hd as [Hd1 Hd2]. pose proof Hd2 as Hd2'.
  apply Ascii.eqb_neq in Hd2'. rewrite Hd2'.
  rewrite ext_char_first by done.
  rewrite ext_loop_plain; [|by apply Forall_rev|done|simpl; lia].
  rewrite length_rev. cbn [Path.ext_loop].
  replace (Ascii.eqb Path.CHAR_DOT Path.CHAR_FORWARD_SLASH) with false by done.
  rewrite ext_char_dot by lia.
  apply Ascii.eqb_neq in Hc. rewrite Hc.
  destruct (ext_char_after c (n - 1 - 1 - Z.of_nat (length e) - 1)
              (n - 1 - 1 - Z.of_nat (length e)) (n - 1 + 1))
    as (p & Hp & ->); [lia|lia|].
  match goal with
  | |- context [Path.ext_loop (rev stem) ?i ?st] =>
      destruct (ext_loop_settled (rev stem) i st) as (E1 & E2 & E3);
        [simpl; lia|simpl; lia|done|]
  end.
  rewrite E1, E2. simpl. split; [lia|]. split; [lia|done].
Qed.

Lemma extname_chars_suffix (stem e : list ascii) (c d : ascii) :
  c ≠ Path.CHAR_FORWARD_SLASH → plain_char d → Forall plain_char e →
  Path.extname_chars ((stem ++ [c]) ++ Path.CHAR_DOT :: e ++ [d])
  = Path.CHAR_DOT :: e ++ [d].
Proof.
  intros Hc Hd He. unfold Path.extname_chars.
  set (cs := (stem ++ [c]) ++ Path.CHAR_DOT :: e ++ [d]).
  assert (Z.of_nat (length cs) = Z.of_nat (length (stem ++ [c])) + 1
                                 + Z.of_nat (length e) + 1) as Hn.
  { unfold cs. rewrite !length_app, !length_cons, !length_app.
    cbn [length]. lia. }
  assert (rev cs = d :: rev e ++ Path.CHAR_DOT :: c :: rev stem) as ->.
  { unfold cs. rewrite rev_app_distr. simpl. rewrite rev_app_distr. simpl.
    rewrite rev_app_distr. simpl. rewrite <- !app_assoc. done. }
  destruct (ext_loop_suffix stem e c d (Z.of_nat (length cs)))
    as (E1 & E2 & E3); [done|done|done|lia|].
  unfold Path.ext_none. rewrite E1, E2.
  apply Z.eqb_neq in E3. rewrite E3.
  replace (Z.of_nat (length cs) - 2 - Z.of_nat (length e) =? -1)
    with false by (symmetry; apply Z.eqb_neq; lia).
  replace (Z.of_nat (length cs) =? -1)
    with false by (symmetry; apply Z.eqb_neq; lia).
  replace (Z.of_nat (length cs) - 2 - Z.of_nat (length e)
           =? Z.of_nat (length cs) - 1)
    with false by (symmetry; apply Z.eqb_neq; lia).
  rewrite andb_false_r. simpl.
  unfold Path.slice.
  replace (Z.to_nat (Z.of_nat (length cs) - 2 - Z.of_nat (length e)))
    with (length (stem ++ [c])) by lia.
  replace (Z.to_nat (Z.of_nat (length cs)
                     - (Z.of_nat (length cs) - 2 - Z.of_nat (length e))))
    with (length (Path.CHAR_DOT :: e ++ [d]))
    by (rewrite length_cons, length_app; cbn [length]; lia).
  unfold cs. rewrite drop_app_length. apply firstn_all.
Qed.

Lemma extname_no_dot (name : string) :
  Forall (λ c, c ≠ Path.CHAR_DOT) (Path.chars name) → Path.extname name = "".
Proof.
  intros Hall. unfold Path.extname. by rewrite extname_chars_no_dot.
Qed.

Lemma extname_suffix (stem ext : string) (c : ascii) :
  last (Path.chars stem) = Some c → c ≠ Path.CHAR_FORWARD_SLASH →
  ext ≠ "" → Forall plain_char (Path.chars ext) →
  Path.extname (stem +:+ "." +:+ ext) = "." +:+ ext.
Proof.
  intros Hlast Hc Hne Hplain.
  apply last_Some in Hlast as [stem' Hstem].
  destruct (Path.chars ext) as [|x xs _] eqn:Hext using rev_ind.
  { exfalso. apply Hne. by rewrite <- (str_chars ext), Hext. }
  apply Forall_app in Hplain as [Hxs Hx].
  inversion Hx as [|? ? Hd _]; subst.
  unfold Path.extname.
  rewrite !chars_app, Hstem, Hext.
  change (Path.chars ".") with [Path.CHAR_DOT].
  change ([Path.CHAR_DOT] ++ xs ++ [x]) with (Path.CHAR_DOT :: xs ++ [x]).
  rewrite extname_chars_suffix by done.
  rewrite <- Hext.
  change (Path.CHAR_DOT :: Path.chars ext) with (Path.chars "." ++ Path.chars ext).
  by rewrite <- chars_app, str_chars.
Qed.

Lemma js_or_nonempty (a b : string) : b ≠ "" → js_or a b ≠ "".
Proof. intros Hb. unfold js_or. by destruct (decide (a = "")). Qed.

Lemma string_length_app (a b : string) :
  String.length (a +:+ b) = (String.length a + String.length b)%nat.
Proof. induction a as [|c a IH]; simpl; [done|]. by rewrite IH. Qed.

Lemma string_app_inv_head (a b c : string) : a +:+ b = a +:+ c → b = c.
Proof. induction a as [|x a IH]; simpl; [done|]. intros [= H]. auto. Qed.

Lemma string_nonempty_length (s : string) : s ≠ "" → (1 ≤ String.length s)%nat.
Proof. destruct s; [done|]. simpl. lia. Qed.

(** ** The upload route *)

Lemma upload_single_file (cwd uuid : string) (now : Z) (file : IncomingFile)
    (w : World) :
  fieldname file = "video" →
  upload_single cwd uuid now (ParseFile file) w
  = (None,
     Some {| file_info := file; destination := uploadDir cwd;
             filename := storage_filename uuid file;
             path := Path.join [uploadDir cwd; storage_filename uuid file] |},
     {| disk := <[Path.join [uploadDir cwd; storage_filename uuid file] :=
                    {| birthtimeMs := now; mtimeMs := now;
                       stat_err := None; unlink_err := None |}]>
                  (disk w);
        console := console w |}).
Proof. intros Hfield. unfold upload_single. by rewrite decide_True. Qed.

Lemma upload_single_unexpected (cwd uuid : string) (now : Z)
    (file : IncomingFile) (w : World) :
  fieldname file ≠ "video" →
  upload_single cwd uuid now (ParseFile file) w
  = (Some (MulterError LIMIT_UNEXPECTED_FILE "Unexpected field"), None, w).
Proof. intros Hfield. unfold upload_single. by rewrite decide_False. Qed.

(** C9. The backing file of an upload is written in the upload directory under
    the name [uuid + ext]: when the declared original name has no extension
    ([path.extname] is empty, as for every name without a dot) the name is the
    id followed by ".mp4"; when it has one (as for [stem.ext] with a plain
    [ext]) the name is the id followed by that extension. *)
Theorem backing_file_name (cwd uuid : string) (now : Z) (file : IncomingFile)
    (w : World) :
  (fieldname file = "video" →
   let '(_, reqfile, w') := upload_single cwd uuid now (ParseFile file) w in
   filename <$> reqfile = Some (storage_filename uuid file)
   ∧ is_Some (disk w' !! Path.join [uploadDir cwd; storage_filename uuid file]))
  ∧ (Path.extname (originalname file) = "" →
     storage_filename uuid file = uuid +:+ ".mp4")
  ∧ (Path.extname (originalname file) ≠ "" →
     storage_filename uuid file = uuid +:+ Path.extname (originalname file))
  ∧ (Forall (λ c, c ≠ Path.CHAR_DOT) (Path.chars (originalname file)) →
     storage_filename uuid file = uuid +:+ ".mp4")
  ∧ (∀ (stem ext : string) (c : ascii),
       originalname file = stem +:+ "." +:+ ext →
       last (Path.chars stem) = Some c → c ≠ Path.CHAR_FORWARD_SLASH →
       ext ≠ "" → Forall plain_char (Path.chars ext) →
       storage_filename uuid file = uuid +:+ "." +:+ ext).
Proof.
  unfold storage_filename, js_or. split; [|repeat split].
  - intros Hfield. rewrite upload_single_file by done.
    cbn [fmap option_fmap option_map filename disk].
    split; [done|]. by rewrite lookup_insert_eq.
  - intros ->. done.
  - intros Hext. by destruct (decide _).
  - intros Hall. by rewrite extname_no_dot.
  - intros stem ext c -> Hlast Hc Hne Hplain.
    rewrite (extname_suffix stem ext c) by done. done.
Qed.

Lemma backing_file_name_witness :
  is_Some (disk (upload_single "/srv/app"
                   "3f2b8c1e-9a4d-4e6f-8b7a-1c2d3e4f5a6b" 0
                   (ParseFile (mkIncoming "video" "holiday" "video/mp4"))
                   (mkWorld ∅ [])).2
           !! Path.join [uploadDir "/srv/app";
                         storage_filename "3f2b8c1e-9a4d-4e6f-8b7a-1c2d3e4f5a6b"
                           (mkIncoming "video" "holiday" "video/mp4")])
  ∧ storage_filename "3f2b8c1e-9a4d-4e6f-8b7a-1c2d3e4f5a6b"
    (mkIncoming "video" "holiday" "video/mp4")
  = "3f2b8c1e-9a4d-4e6f-8b7a-1c2d3e4f5a6b.mp4"
  ∧ storage_filename "3f2b8c1e-9a4d-4e6f-8b7a-1c2d3e4f5a6b"
      (mkIncoming "video" "holiday.2024.mov" "video/quicktime")
    = "3f2b8c1e-9a4d-4e6f-8b7a-1c2d3e4f5a6b.mov".
Proof.
  split; [|split].
  - exact (proj2 (proj1 (backing_file_name "/srv/app"
      "3f2b8c1e-9a4d-4e6f-8b7a-1c2d3e4f5a6b" 0
      (mkIncoming "video" "holiday" "video/mp4")
      (mkWorld ∅ [])) eq_refl)).
  - exact (proj1 (proj2 (backing_file_name "/srv/app"
      "3f2b8c1e-9a4d-4e6f-8b7a-1c2d3e4f5a6b" 0
      (mkIncoming "video" "holiday" "video/mp4")
      (mkWorld ∅ [])) ) eq_refl).
  - refine (proj2 (proj2 (proj2 (proj2 (backing_file_name "/srv/app"
      "3f2b8c1e-9a4d-4e6f-8b7a-1c2d3e4f5a6b" 0
      (mkIncoming "video" "holiday.2024.mov" "video/quicktime")
      (mkWorld ∅ [])))))
      "holiday.2024" "mov" "4"%char eq_refl eq_refl _ _ _).
    + discriminate.
    + discriminate.
    + repeat constructor; discriminate.
Defined.

Lemma storage_filename_ext (uuid : string) (file : IncomingFile) :
  ∃ ext, ext ≠ "" ∧ ext = js_or (Path.extname (originalname file)) ".mp4"
         ∧ storage_filename uuid file = uuid +:+ ext.
Proof.
  exists (js_or (Path.extname (originalname file)) ".mp4").
  split; [by apply js_or_nonempty|done].
Qed.

(** C5, as the code has it. The name under which an asset is stored and
    addressed is the uuid followed by an extension; the uuid part does not
    depend on the declared original name, the extension is taken from it
    ([path.extname], or ".mp4"), and two uploads whose original names have the
    same extension get names that differ in the uuid only. *)
Theorem identifier_depends_on_extension_only (uuid : string)
    (file : IncomingFile) :
  (∃ ext, ext = js_or (Path.extname (originalname file)) ".mp4"
          ∧ storage_filename uuid file = uuid +:+ ext)
  ∧ String.substring 0 (String.length uuid) (storage_filename uuid file) = uuid
  ∧ (∀ file' : IncomingFile,
       Path.extname (originalname file') = Path.extname (originalname file) →
       storage_filename uuid file' = storage_filename uuid file)
  ∧ (∀ file' : IncomingFile,
       storage_filename uuid file' = storage_filename uuid file →
       js_or (Path.extname (originalname file')) ".mp4"
       = js_or (Path.extname (originalname file)) ".mp4").
Proof.
  repeat split.
  - by eexists.
  - unfold storage_filename.
    generalize (js_or (Path.extname (originalname file)) ".mp4"). intros ext.
    induction uuid as [|c u IH]; simpl; [by destruct ext|]. by rewrite IH.
  - intros file' Hext. unfold storage_filename. by rewrite Hext.
  - intros file'. unfold storage_filename. apply string_app_inv_head.
Qed.

Lemma identifier_depends_on_extension_only_witness :
  storage_filename "3f2b8c1e-9a4d-4e6f-8b7a-1c2d3e4f5a6b"
    (mkIncoming "video" "beach.mov" "video/quicktime")
  = storage_filename "3f2b8c1e-9a4d-4e6f-8b7a-1c2d3e4f5a6b"
      (mkIncoming "video" "my secret project.mov" "video/quicktime").
Proof.
  apply (proj1 (proj2 (proj2 (identifier_depends_on_extension_only
    "3f2b8c1e-9a4d-4e6f-8b7a-1c2d3e4f5a6b"
    (mkIncoming "video" "my secret project.mov" "video/quicktime"))))).
  reflexivity.
Defined.

(** C5 as stated does not hold: with the same uuid drawn, two uploads that
    differ only in the declared original name are stored under different
    names, and the name shows the extension of the original one. *)
Lemma identifier_independent_counterexample :
  storage_filename "3f2b8c1e-9a4d-4e6f-8b7a-1c2d3e4f5a6b"
    (mkIncoming "video" "beach.mov" "video/mp4")
  ≠ storage_filename "3f2b8c1e-9a4d-4e6f-8b7a-1c2d3e4f5a6b"
      (mkIncoming "video" "beach.webm" "video/mp4")
  ∧ storage_filename "3f2b8c1e-9a4d-4e6f-8b7a-1c2d3e4f5a6b"
      (mkIncoming "video" "beach.webm" "video/mp4")
    = "3f2b8c1e-9a4d-4e6f-8b7a-1c2d3e4f5a6b.webm".
Proof. split; [discriminate|reflexivity]. Qed.

(** C7, as the code has it. A successful upload is answered 200 with JSON
    whose [filename] field is the stored file name, the uuid followed by the
    (never empty) extension, and whose [url] field is "/v/" followed by that
    same file name; the segment after "/v/" therefore has the uuid's 36
    characters plus the extension, and [GET /v/<file name>] serves the viewer
    page. *)
Theorem success_response (cwd uuid : string) (now : Z) (file : IncomingFile)
    (w : World) :
  fieldname file = "video" →
  let name := storage_filename uuid file in
  let '(response, w') := post_api_upload cwd uuid now (ParseFile file) w in
  response = {| status := 200;
                body := Json [("url", "/v/" +:+ name); ("filename", name)] |}
  ∧ (∃ ext, ext ≠ "" ∧ name = uuid +:+ ext)
  ∧ (String.length uuid = 36%nat → (37 ≤ String.length name)%nat)
  ∧ get_v cwd w' name
    = {| status := 200; body := Html (ViewerPage ("/uploads/" +:+ name)) |}.
Proof.
  intros Hfield name. unfold post_api_upload.
  rewrite upload_single_file by done.
  cbn [upload_callback upload_respond filename].
  destruct (storage_filename_ext uuid file) as (ext & Hne & _ & Hname).
  fold name in Hname |- *.
  repeat split.
  - by exists ext.
  - intros Hlen. rewrite Hname, string_length_app, Hlen.
    apply string_nonempty_length in Hne. lia.
  - unfold get_v, get_v_filePath, fs_existsSync. cbn [disk].
    rewrite lookup_insert_eq. rewrite bool_decide_eq_true_2 by eauto. done.
Qed.

Lemma success_response_witness :
  (37 ≤ String.length (storage_filename "3f2b8c1e-9a4d-4e6f-8b7a-1c2d3e4f5a6b"
                         (mkIncoming "video" "beach.mov" "video/quicktime")))%nat.
Proof.
  apply (proj1 (proj2 (proj2 (success_response "/srv/app"
    "3f2b8c1e-9a4d-4e6f-8b7a-1c2d3e4f5a6b" 1700000000000
    (mkIncoming "video" "beach.mov" "video/quicktime") (mkWorld ∅ [])
    eq_refl)))).
  reflexivity.
Defined.

(** C7 as stated does not hold: for the upload of "beach.mov" no id makes the
    answer [{url: "/v/<id>", filename: "<id>.mov"}], and [GET /v/<uuid>] for
    the minted uuid is answered 404. *)
Lemma success_response_counterexample :
  let uuid := "3f2b8c1e-9a4d-4e6f-8b7a-1c2d3e4f5a6b" in
  let result :=
    post_api_upload "/srv/app" uuid 1700000000000
      (ParseFile (mkIncoming "video" "beach.mov" "video/quicktime"))
      (mkWorld ∅ []) in
  (¬ ∃ id : string,
       body (fst result)
       = Json [("url", "/v/" +:+ id); ("filename", id +:+ ".mov")])
  ∧ body (fst result) ≠ Json [("url", "/v/" +:+ uuid);
                              ("filename", uuid +:+ ".mov")]
  ∧ status (get_v "/srv/app" (snd result) uuid) = 404.
Proof.
  cbv zeta. split; [|split].
  - intros [id H]. vm_compute in H. injection H as H1 H2. subst id.
    discriminate H2.
  - intros H. vm_compute in H. discriminate H.
  - vm_compute. reflexivity.
Qed.



(** C4, as the code has it. The server never looks at the declared media
    type: a file part that multer accepts is stored and answered 200 whatever
    its type, and changing the type changes neither the answer nor the
    stored file. The type check is the browser client's: [handleFile] shows
    an error and sends nothing unless the type starts with "video/". *)
Theorem media_type_guard_is_client_side :
  (∀ (cwd uuid : string) (now : Z) (file : IncomingFile) (w : World)
     (type' : string),
     (fieldname file = "video" →
      status (fst (post_api_upload cwd uuid now (ParseFile file) w)) = 200)
     ∧ post_api_upload cwd uuid now
         (ParseFile (mkIncoming (fieldname file) (originalname file) type')) w
       = post_api_upload cwd uuid now (ParseFile file) w)
  ∧ (∀ file : BrowserFile,
       startsWith (file_type file) "video/" = false →
       handleFile file
       = SetError "Please upload a valid video file (MP4, WebM, MOV, etc).")
  ∧ (∀ file sent : BrowserFile,
       handleFile file = PostUpload sent →
       startsWith (file_type file) "video/" = true ∧ sent = file).
Proof.
  split; [|split].
  - intros. split.
    + intros Hfield. unfold post_api_upload. by rewrite upload_single_file.
    + destruct file as [field name type]. unfold post_api_upload, upload_single.
      cbn [fieldname]. by destruct (decide (field = "video")).
  - intros file Htype. unfold handleFile. by rewrite Htype.
  - intros file sent. unfold handleFile.
    destruct (startsWith (file_type file) "video/"); simpl; [|done].
    destruct (file_size file >? 500 * 1024 * 1024); [done|].
    by intros [= ->].
Qed.

Lemma media_type_guard_is_client_side_witness :
  handleFile (mkBrowserFile "text/plain" 2048 "notes.txt")
  = SetError "Please upload a valid video file (MP4, WebM, MOV, etc).".
Proof.
  apply (proj1 (proj2 media_type_guard_is_client_side)). reflexivity.
Defined.

(** C4 as stated does not hold: a file part declared "text/plain" is answered
    200 and its bytes are stored in the upload directory. *)
Lemma media_type_counterexample :
  let file := mkIncoming "video" "notes.txt" "text/plain" in
  let result :=
    post_api_upload "/srv/app" "3f2b8c1e-9a4d-4e6f-8b7a-1c2d3e4f5a6b"
      1700000000000 (ParseFile file) (mkWorld ∅ []) in
  startsWith (mimetype file) "video/" = false
  ∧ status (fst result) = 200
  ∧ fs_existsSync (snd result)
      "/srv/app/uploads/3f2b8c1e-9a4d-4e6f-8b7a-1c2d3e4f5a6b.txt" = true.
Proof. cbv zeta. split; [|split]; vm_compute; reflexivity. Qed.

(** C1, evaluated on the code. For the id "../../../etc/passwd" (the request
    [GET /v/..%2F..%2F..%2Fetc%2Fpasswd]) the handler resolves the path
    "/etc/passwd", outside the upload directory, tests that path on the file
    system, and answers 200 with the viewer page when it exists. *)
Theorem get_v_path_escapes_upload_root :
  let cwd := "/srv/app" in
  let id := "../../../etc/passwd" in
  let w := mkWorld {[ "/etc/passwd" := mkFile 0 0 None None ]} [] in
  uploadDir cwd = "/srv/app/uploads"
  ∧ get_v_filePath cwd id = "/etc/passwd"
  ∧ within (uploadDir cwd) (get_v_filePath cwd id) = false
  ∧ get_v cwd w id
    = {| status := 200;
         body := Html (ViewerPage "/uploads/../../../etc/passwd") |}
  ∧ status (get_v cwd (mkWorld ∅ []) id) = 404.
Proof. cbv zeta. repeat split; vm_compute; reflexivity. Qed.

(** ** The cleanup sweep *)

Lemma cleanup_file_disk (cwd : string) (now : Z) (w : World) (file : string) :
  disk (cleanup_file cwd now w file)
  = match disk w !! entry_path cwd file with
    | Some f => if reaped now f then delete (entry_path cwd file) (disk w)
                else disk w
    | None => disk w
    end.
Proof.
  unfold cleanup_file, fs_stat, fs_unlink, reaped. fold (entry_path cwd file).
  destruct (disk w !! entry_path cwd file) as [f|] eqn:Hf; [|done].
  destruct (stat_err f); [done|]. simpl.
  destruct (now - mtimeMs f >? MAX_AGE); [|done].
  destruct (unlink_err f); done.
Qed.

(** The fate of every path in one step of the sweep. *)
Lemma cleanup_file_lookup (cwd : string) (now : Z) (w : World)
    (file p : string) :
  disk (cleanup_file cwd now w file) !! p
  = match disk w !! p with
    | Some f => if reaped now f && bool_decide (p = entry_path cwd file)
                then None else Some f
    | None => None
    end.
Proof.
  rewrite cleanup_file_disk.
  destruct (decide (p = entry_path cwd file)) as [->|Hne].
  - destruct (disk w !! entry_path cwd file) as [f|] eqn:Hf; [|by rewrite Hf].
    rewrite bool_decide_eq_true_2 by done. rewrite andb_true_r.
    destruct (reaped now f); [by rewrite lookup_delete_eq|by rewrite Hf].
  - destruct (disk w !! entry_path cwd file) as [f|];
      [destruct (reaped now f)|]; rewrite ?lookup_delete_ne by done;
      (destruct (disk w !! p) as [g|]; [|done]);
      rewrite bool_decide_eq_false_2 by done; by rewrite andb_false_r.
Qed.

(** The fate of every path in a whole sweep: a file goes exactly when it is
    reaped and some entry of the snapshot names its path. *)
Lemma cleanup_lookup (cwd : string) (now : Z) (files : list string) :
  ∀ (w : World) (p : string),
  disk (cleanup cwd now (inr files) w) !! p
  = match disk w !! p with
    | Some f => if reaped now f && bool_decide (p ∈ entry_path cwd <$> files)
                then None else Some f
    | None => None
    end.
Proof.
  unfold cleanup.
  induction files as [|file files IH]; intros w p; cbn [fold_left fmap list_fmap].
  - destruct (disk w !! p); [|done].
    rewrite bool_decide_eq_false_2 by (by intros ?%elem_of_nil).
    by rewrite andb_false_r.
  - rewrite IH, cleanup_file_lookup.
    destruct (disk w !! p) as [f|]; [|done].
    destruct (reaped now f) eqn:Hr; simpl; [|by rewrite Hr].
    destruct (decide (p = entry_path cwd file)) as [->|Hne].
    + rewrite bool_decide_eq_true_2 by done.
      rewrite bool_decide_eq_true_2 by apply list_elem_of_here. done.
    + rewrite bool_decide_eq_false_2 by done. rewrite Hr. simpl.
      destruct (decide (p ∈ entry_path cwd <$> files)) as [Hin|Hnin].
      * rewrite bool_decide_eq_true_2 by done.
        rewrite bool_decide_eq_true_2 by (by apply list_elem_of_further).
        done.
      * rewrite bool_decide_eq_false_2 by done.
        rewrite bool_decide_eq_false_2; [done|].
        intros [?|?]%elem_of_cons; done.
Qed.

(** The files left by a sweep do not depend on the order in which the
    entries are worked off. *)
Lemma cleanup_disk_order (cwd : string) (now : Z) (files files' : list string)
    (w : World) :
  files ≡ₚ files' →
  disk (cleanup cwd now (inr files) w) = disk (cleanup cwd now (inr files') w).
Proof.
  intros Hperm. apply map_eq. intros p. rewrite !cleanup_lookup.
  destruct (disk w !! p) as [f|]; [|done].
  assert (bool_decide (p ∈ entry_path cwd <$> files)
          = bool_decide (p ∈ entry_path cwd <$> files')) as ->; [|done].
  apply bool_decide_ext. by rewrite Hperm.
Qed.

Lemma cleanup_readdir_error (cwd : string) (now : Z) (err : ErrnoException)
    (w : World) :
  disk (cleanup cwd now (inl err) w) = disk w.
Proof. reflexivity. Qed.

(** A sweep only ever removes files. *)
Lemma cleanup_only_removes (cwd : string) (now : Z)
    (readdir : ErrnoException + list string) (w : World) (p : string) :
  disk (cleanup cwd now readdir w) !! p = disk w !! p
  ∨ disk (cleanup cwd now readdir w) !! p = None.
Proof.
  destruct readdir as [err|files]; [by left|].
  rewrite cleanup_lookup. destruct (disk w !! p) as [f|]; [|by left].
  destruct (_ && _); [by right|by left].
Qed.

(** An entry whose [fs.stat] or [fs.unlink] fails leaves the world as it is. *)
Lemma cleanup_file_failure (cwd : string) (now : Z) (w : World)
    (file : string) (err : ErrnoException) :
  fs_stat w (entry_path cwd file) = inl err
  ∨ fst (fs_unlink w (entry_path cwd file)) = Some err →
  cleanup_file cwd now w file = w.
Proof.
  unfold cleanup_file. fold (entry_path cwd file).
  intros [Hstat|Hunlink].
  - by rewrite Hstat.
  - destruct (fs_stat w (entry_path cwd file)) as [|m]; [done|].
    destruct (now - m >? MAX_AGE); [|done].
    revert Hunlink. unfold fs_unlink.
    destruct (disk w !! entry_path cwd file) as [f|]; [|done].
    destruct (unlink_err f); done.
Qed.

Lemma cleanup_app (cwd : string) (now : Z) (l1 l2 : list string) (w : World) :
  cleanup cwd now (inr (l1 ++ l2)) w
  = cleanup cwd now (inr l2) (cleanup cwd now (inr l1) w).
Proof. unfold cleanup. apply fold_left_app. Qed.

Lemma cleanup_reaps (cwd : string) (now : Z) (files : list string) (w : World)
    (file : string) (f : File) :
  file ∈ files → disk w !! entry_path cwd file = Some f → reaped now f = true →
  disk (cleanup cwd now (inr files) w) !! entry_path cwd file = None.
Proof.
  intros Hin Hf Hreaped. rewrite cleanup_lookup, Hf, Hreaped.
  rewrite bool_decide_eq_true_2; [done|]. by apply list_elem_of_fmap_2.
Qed.

Lemma cleanup_keeps (cwd : string) (now : Z)
    (readdir : ErrnoException + list string) (w : World) (p : string)
    (f : File) :
  disk w !! p = Some f → reaped now f = false →
  disk (cleanup cwd now readdir w) !! p = Some f.
Proof.
  intros Hf Hreaped. destruct readdir as [err|files]; [done|].
  by rewrite cleanup_lookup, Hf, Hreaped.
Qed.

Lemma cleanup_absent (cwd : string) (now : Z)
    (readdir : ErrnoException + list string) (w : World) (p : string) :
  disk w !! p = None → disk (cleanup cwd now readdir w) !! p = None.
Proof. intros Hp. destruct (cleanup_only_removes cwd now readdir w p); congruence. Qed.

(** C8. In a sweep, an entry whose [fs.stat] or [fs.unlink] fails changes
    nothing, and the sweep goes on exactly as if that entry were not in the
    directory snapshot: every listed file that is expired and can be examined
    and unlinked is deleted whatever happens to the other entries, in this
    sweep and in the next one. *)
Theorem sweep_skips_failed_entries (cwd : string) (now : Z) (w : World) :
  (∀ (file : string) (err : ErrnoException),
     fs_stat w (entry_path cwd file) = inl err
     ∨ fst (fs_unlink w (entry_path cwd file)) = Some err →
     cleanup_file cwd now w file = w)
  ∧ (∀ (before after : list string) (bad : string) (err : ErrnoException),
       let w1 := cleanup cwd now (inr before) w in
       fs_stat w1 (entry_path cwd bad) = inl err
       ∨ fst (fs_unlink w1 (entry_path cwd bad)) = Some err →
       cleanup cwd now (inr (before ++ bad :: after)) w
       = cleanup cwd now (inr (before ++ after)) w)
  ∧ (∀ (files : list string) (file : string) (f : File),
       file ∈ files → disk w !! entry_path cwd file = Some f →
       reaped now f = true →
       disk (cleanup cwd now (inr files) w) !! entry_path cwd file = None)
  ∧ (∀ (readdir : ErrnoException + list string) (now' : Z)
       (files' : list string) (file : string) (f : File),
       file ∈ files' → disk w !! entry_path cwd file = Some f →
       reaped now' f = true →
       disk (run cwd w [Sweep now readdir; Sweep now' (inr files')])
         !! entry_path cwd file = None).
Proof.
  split; [|split; [|split]].
  - intros file err. apply cleanup_file_failure.
  - intros before after bad err w1 Hfail.
    rewrite !cleanup_app. fold w1.
    change (cleanup cwd now (inr (bad :: after)) w1)
      with (cleanup cwd now (inr after) (cleanup_file cwd now w1 bad)).
    by rewrite (cleanup_file_failure cwd now w1 bad err).
  - intros files file f. apply cleanup_reaps.
  - intros readdir now' files' file f Hin Hf Hreaped.
    cbn [run fold_left step].
    destruct (cleanup_only_removes cwd now readdir w (entry_path cwd file))
      as [Hsame|Hgone].
    + apply (cleanup_reaps _ _ _ _ _ f); [done| |done]. by rewrite Hsame.
    + by apply cleanup_absent.
Qed.

Lemma sweep_skips_failed_entries_witness :
  let w := mkWorld
    {[ "/srv/app/uploads/locked.mp4" := mkFile 0 0 None (Some EPERM);
       "/srv/app/uploads/hidden.mp4" := mkFile 0 0 (Some EACCES) None;
       "/srv/app/uploads/old.mp4" := mkFile 0 0 None None ]} [] in
  let files := ["vanished.mp4"; "hidden.mp4"; "locked.mp4"; "old.mp4"] in
  disk (cleanup "/srv/app" 3600001 (inr files) w)
    !! entry_path "/srv/app" "old.mp4" = None
  ∧ cleanup "/srv/app" 3600001 (inr (["vanished.mp4"; "hidden.mp4"]
                                      ++ "locked.mp4" :: ["old.mp4"])) w
    = cleanup "/srv/app" 3600001
        (inr (["vanished.mp4"; "hidden.mp4"] ++ ["old.mp4"])) w.
Proof.
  cbv zeta. split.
  - apply (proj1 (proj2 (proj2 (sweep_skips_failed_entries "/srv/app" 3600001 _)))
             _ "old.mp4" (mkFile 0 0 None None)).
    + apply list_elem_of_In. simpl. tauto.
    + vm_compute. reflexivity.
    + vm_compute. reflexivity.
  - apply (proj1 (proj2 (sweep_skips_failed_entries "/srv/app" 3600001 _))
             _ _ _ EPERM).
    right. vm_compute. reflexivity.
Defined.

(** C10. An entry whose [fs.stat] answers is unlinked exactly when [now]
    minus its [mtimeMs] is strictly more than 3,600,000 ms; so a listed file
    that can be examined and unlinked is gone after the sweep if and only if
    that age exceeds the bound. The age is counted from the modification
    time, not from the creation time: a file created long ago and modified
    within the last hour is kept. *)
Theorem sweep_deletes_by_mtime (cwd : string) (now : Z) (w : World)
    (file : string) :
  MAX_AGE = 3600000
  ∧ (∀ m : Z,
       fs_stat w (entry_path cwd file) = inr m →
       cleanup_file cwd now w file
       = if now - m >? 3600000
         then match fs_unlink w (entry_path cwd file) with
              | (None, w') =>
                  console_log ("[Cleanup] Deleted expired file: " +:+ file) w'
              | (Some _, w') => w'
              end
         else w)
  ∧ (∀ (files : list string) (f : File),
       file ∈ files → disk w !! entry_path cwd file = Some f →
       stat_err f = None → unlink_err f = None →
       (disk (cleanup cwd now (inr files) w) !! entry_path cwd file = None
        ↔ now - mtimeMs f > 3600000)
       ∧ (now - mtimeMs f ≤ 3600000 →
          disk (cleanup cwd now (inr files) w) !! entry_path cwd file = Some f))
  ∧ (∀ (files : list string) (f : File),
       disk w !! entry_path cwd file = Some f →
       now - birthtimeMs f > 3600000 → now - mtimeMs f ≤ 3600000 →
       disk (cleanup cwd now (inr files) w) !! entry_path cwd file = Some f).
Proof.
  split; [reflexivity|]. split; [|split].
  - intros m Hstat. unfold cleanup_file. fold (entry_path cwd file).
    by rewrite Hstat.
  - intros files f Hin Hf Hstat Hunlink.
    assert (reaped now f = (now - mtimeMs f >? 3600000)) as Hreaped.
    { unfold reaped. rewrite Hstat, Hunlink. simpl.
      by rewrite andb_true_r. }
    split; [split|].
    + intros Hgone. destruct (now - mtimeMs f >? 3600000) eqn:Hage; [lia|].
      rewrite (cleanup_keeps cwd now (inr files) w _ f) in Hgone; done.
    + intros Hage. apply (cleanup_reaps _ _ _ _ _ f); [done..|].
      rewrite Hreaped. lia.
    + intros Hage. apply cleanup_keeps; [done|]. rewrite Hreaped. lia.
  - intros files f Hf _ Hage. apply cleanup_keeps; [done|].
    unfold reaped. change MAX_AGE with 3600000.
    replace (now - mtimeMs f >? 3600000) with false by lia.
    by rewrite andb_false_r.
Qed.

Lemma sweep_deletes_by_mtime_witness :
  let w := mkWorld
    {[ "/srv/app/uploads/old.mp4" := mkFile 0 0 None None;
       "/srv/app/uploads/touched.mp4" := mkFile 0 5000000 None None ]} [] in
  let files := ["old.mp4"; "touched.mp4"] in
  (disk (cleanup "/srv/app" 7200000 (inr files) w)
     !! entry_path "/srv/app" "old.mp4" = None
   ↔ 7200000 - 0 > 3600000)
  ∧ disk (cleanup "/srv/app" 7200000 (inr files) w)
      !! entry_path "/srv/app" "touched.mp4"
    = Some (mkFile 0 5000000 None None).
Proof.
  cbv zeta. split.
  - apply (proj1 (proj2 (proj2 (sweep_deletes_by_mtime "/srv/app" 7200000 _
             "old.mp4"))) _ (mkFile 0 0 None None)).
    + apply list_elem_of_In. simpl. tauto.
    + vm_compute. reflexivity.
    + reflexivity.
    + reflexivity.
  - apply (proj2 (proj2 (proj2 (sweep_deletes_by_mtime "/srv/app" 7200000 _
             "touched.mp4"))) _ (mkFile 0 5000000 None None)).
    + vm_compute. reflexivity.
    + simpl. lia.
    + simpl. lia.
Defined.

(** ** Runs: uploads, sweeps and views *)

Lemma get_v_status (cwd : string) (w : World) (id : string) :
  status (get_v cwd w id)
  = match disk w !! entry_path cwd id with Some _ => 200 | None => 404 end.
Proof.
  unfold get_v, get_v_filePath, fs_existsSync. fold (entry_path cwd id).
  destruct (disk w !! entry_path cwd id) as [f|].
  - rewrite bool_decide_eq_true_2 by eauto. done.
  - rewrite bool_decide_eq_false_2 by (by intros [? ?]). done.
Qed.

Lemma upload_lookup (cwd uuid : string) (now : Z) (p : Parsed) (w : World)
    (q : string) :
  uploads_elsewhere cwd q (Upload uuid now p) →
  disk (snd (post_api_upload cwd uuid now p w)) !! q = disk w !! q.
Proof.
  destruct p as [err| |file]; intros Hne.
  - unfold post_api_upload, upload_single.
    by destruct (upload_callback (Some err)).
  - done.
  - unfold post_api_upload.
    destruct (decide (fieldname file = "video")) as [Hfield|Hfield].
    + rewrite upload_single_file by done.
      cbn [upload_callback snd disk]. by rewrite lookup_insert_ne.
    + by rewrite upload_single_unexpected.
Qed.

Lemma run_app (cwd : string) (w : World) (es1 es2 : list Event) :
  run cwd w (es1 ++ es2) = run cwd (run cwd w es1) es2.
Proof. apply fold_left_app. Qed.

Lemma step_only_removes (cwd : string) (w : World) (e : Event) (p : string) :
  uploads_elsewhere cwd p e →
  disk (step cwd w e) !! p = disk w !! p ∨ disk (step cwd w e) !! p = None.
Proof.
  destruct e as [now readdir|uuid now parsed|id]; intros Helse; cbn [step].
  - apply cleanup_only_removes.
  - left. by apply upload_lookup.
  - by left.
Qed.

Lemma run_absent (cwd : string) (p : string) (es : list Event) :
  ∀ w : World,
  Forall (uploads_elsewhere cwd p) es →
  disk w !! p = None → disk (run cwd w es) !! p = None.
Proof.
  induction es as [|e es IH]; intros w Hall Hp; [done|].
  inversion Hall as [|? ? He Hes]; subst.
  apply IH; [done|].
  destruct (step_only_removes cwd w e p He); congruence.
Qed.

Lemma run_only_removes (cwd : string) (p : string) (es : list Event) :
  ∀ w : World,
  Forall (uploads_elsewhere cwd p) es →
  disk (run cwd w es) !! p = disk w !! p ∨ disk (run cwd w es) !! p = None.
Proof.
  induction es as [|e es IH]; intros w Hall; [by left|].
  inversion Hall as [|? ? He Hes]; subst. cbn [run fold_left].
  destruct (step_only_removes cwd w e p He) as [Hsame|Hgone].
  - rewrite <- Hsame. by apply IH.
  - right. by apply run_absent.
Qed.

Lemma run_keeps (cwd : string) (p : string) (f : File) (es : list Event) :
  ∀ w : World,
  Forall (sweep_by (mtimeMs f + MAX_AGE)) es →
  Forall (uploads_elsewhere cwd p) es →
  disk w !! p = Some f → disk (run cwd w es) !! p = Some f.
Proof.
  induction es as [|e es IH]; intros w Hsweeps Hall Hp; [done|].
  inversion Hsweeps as [|? ? Hs Hss]; inversion Hall as [|? ? He Hes]; subst.
  apply IH; [done..|].
  destruct e as [now readdir|uuid now parsed|id]; cbn [step].
  - apply cleanup_keeps; [done|]. simpl in Hs. unfold reaped.
    replace (now - mtimeMs f >? MAX_AGE) with false by lia.
    by rewrite andb_false_r.
  - by rewrite upload_lookup.
  - done.
Qed.

Lemma next_sweep_within_interval (start t : Z) :
  start ≤ t →
  ∃ k : nat, t < sweep_time start k ≤ t + CLEANUP_INTERVAL.
Proof.
  intros Hstart. unfold sweep_time. change CLEANUP_INTERVAL with 900000.
  exists (Z.to_nat ((t - start) / 900000)).
  pose proof (Z.div_mod (t - start) 900000 ltac:(lia)) as Hdm.
  pose proof (Z.mod_pos_bound (t - start) 900000 ltac:(lia)) as Hmod.
  assert (0 ≤ (t - start) / 900000) by (apply Z.div_pos; lia).
  rewrite Z2Nat.id by done. lia.
Qed.

(** C3, as the code has it. An asset stored at time [T] is served by every
    read made while no sweep has started after [T + MAX_AGE] (in particular by
    every read before [T + 1 hour]); once a sweep has started strictly after
    [T + MAX_AGE] with the file in its directory snapshot, every later read is
    answered 404; and with the timer on schedule such a sweep starts at most
    one interval (15 minutes) after [T + MAX_AGE]. *)
Theorem asset_lifetime (cwd uuid : string) (T : Z) (file : IncomingFile)
    (w : World) :
  fieldname file = "video" →
  let name := storage_filename uuid file in
  let w0 := snd (post_api_upload cwd uuid T (ParseFile file) w) in
  (MAX_AGE = 3600000 ∧ CLEANUP_INTERVAL = 900000)
  ∧ (∀ es : list Event,
       Forall (sweep_by (T + MAX_AGE)) es →
       Forall (uploads_elsewhere cwd (entry_path cwd name)) es →
       status (get_v cwd (run cwd w0 es) name) = 200)
  ∧ (∀ (es1 es2 : list Event) (now : Z) (files : list string),
       T + MAX_AGE < now → name ∈ files →
       Forall (uploads_elsewhere cwd (entry_path cwd name)) (es1 ++ es2) →
       status (get_v cwd (run cwd w0 (es1 ++ Sweep now (inr files) :: es2))
                 name) = 404)
  ∧ (∀ start : Z,
       start ≤ T →
       ∃ k : nat,
         T + MAX_AGE < sweep_time start k ≤ T + MAX_AGE + CLEANUP_INTERVAL).
Proof.
  intros Hfield name w0.
  set (stored := {| birthtimeMs := T; mtimeMs := T; stat_err := None;
                    unlink_err := None |}).
  assert (disk w0 !! entry_path cwd name = Some stored) as Hstored.
  { unfold w0, post_api_upload. rewrite upload_single_file by done.
    cbn [upload_callback snd disk]. apply lookup_insert_eq. }
  split; [done|]. split; [|split].
  - intros es Hsweeps Helse. rewrite get_v_status.
    by rewrite (run_keeps cwd _ stored es w0).
  - intros es1 es2 now files Hnow Hin Helse.
    apply Forall_app in Helse as [Helse1 Helse2].
    rewrite get_v_status, run_app.
    change (run cwd (run cwd w0 es1) (Sweep now (inr files) :: es2))
      with (run cwd (cleanup cwd now (inr files) (run cwd w0 es1)) es2).
    rewrite run_absent; [done|done|].
    destruct (run_only_removes cwd (entry_path cwd name) es1 w0 Helse1)
      as [Hp|Hp]; [rewrite Hstored in Hp|].
    + apply (cleanup_reaps _ _ _ _ _ stored); [done..|].
      unfold reaped. simpl. rewrite andb_true_r. lia.
    + by apply cleanup_absent.
  - intros start Hstart.
    destruct (next_sweep_within_interval start (T + MAX_AGE)) as [k Hk].
    { unfold MAX_AGE. lia. }
    by exists k.
Qed.

Lemma asset_lifetime_witness :
  let uuid := "3f2b8c1e-9a4d-4e6f-8b7a-1c2d3e4f5a6b" in
  let file := mkIncoming "video" "beach.mov" "video/quicktime" in
  let w0 := snd (post_api_upload "/srv/app" uuid 1000 (ParseFile file)
                   (mkWorld ∅ [])) in
  status (get_v "/srv/app"
            (run "/srv/app" w0
               [Sweep 900000 (inr ["3f2b8c1e-9a4d-4e6f-8b7a-1c2d3e4f5a6b.mov"]);
                View "3f2b8c1e-9a4d-4e6f-8b7a-1c2d3e4f5a6b.mov";
                Sweep 3601000 (inr ["3f2b8c1e-9a4d-4e6f-8b7a-1c2d3e4f5a6b.mov"])])
            (storage_filename uuid file)) = 200
  ∧ status (get_v "/srv/app"
              (run "/srv/app" w0
                 ([Sweep 3601000 (inr ["3f2b8c1e-9a4d-4e6f-8b7a-1c2d3e4f5a6b.mov"])]
                  ++ Sweep 4500000 (inr ["3f2b8c1e-9a4d-4e6f-8b7a-1c2d3e4f5a6b.mov"])
                  :: [View "3f2b8c1e-9a4d-4e6f-8b7a-1c2d3e4f5a6b.mov"]))
              (storage_filename uuid file)) = 404
  ∧ ∃ k : nat, 1000 + MAX_AGE < sweep_time 0 k
               ≤ 1000 + MAX_AGE + CLEANUP_INTERVAL.
Proof.
  cbv zeta.
  pose proof (asset_lifetime "/srv/app" "3f2b8c1e-9a4d-4e6f-8b7a-1c2d3e4f5a6b"
                1000 (mkIncoming "video" "beach.mov" "video/quicktime")
                (mkWorld ∅ []) eq_refl) as (_ & Hpresent & Habsent & Hbound).
  split; [|split].
  - apply Hpresent.
    + repeat constructor; simpl; unfold MAX_AGE; lia.
    + repeat constructor.
  - apply Habsent.
    + unfold MAX_AGE. lia.
    + apply list_elem_of_In. simpl. tauto.
    + repeat constructor.
  - apply Hbound. lia.
Defined.

(** C3 as stated does not hold: a sweep that starts exactly at [T + MAX_AGE]
    finds the age equal to, not greater than, the bound and keeps the file;
    the read after it is still answered 200. *)
Lemma asset_lifetime_counterexample :
  let uuid := "3f2b8c1e-9a4d-4e6f-8b7a-1c2d3e4f5a6b" in
  let file := mkIncoming "video" "beach.mov" "video/quicktime" in
  let T := 1000 in
  let w0 := snd (post_api_upload "/srv/app" uuid T (ParseFile file)
                   (mkWorld ∅ [])) in
  let w1 := run "/srv/app" w0
              [Sweep (T + MAX_AGE)
                 (inr ["3f2b8c1e-9a4d-4e6f-8b7a-1c2d3e4f5a6b.mov"])] in
  storage_filename uuid file = "3f2b8c1e-9a4d-4e6f-8b7a-1c2d3e4f5a6b.mov"
  ∧ T + MAX_AGE ≤ T + MAX_AGE
  ∧ status (get_v "/srv/app" w1 (storage_filename uuid file)) = 200.
Proof. cbv zeta. split; [|split]; [reflexivity|lia|vm_compute; reflexivity]. Qed.

(** ** [path.join] on plain names *)

Lemma split_slash_plain (seg rest : list ascii) :
  Path.CHAR_FORWARD_SLASH ∉ seg →
  Path.split_slash (seg ++ Path.CHAR_FORWARD_SLASH :: rest)
  = seg :: Path.split_slash rest.
Proof.
  induction seg as [|c seg IH]; intros Hno; simpl; [done|].
  apply not_elem_of_cons in Hno as [Hc Hseg].
  assert (Ascii.eqb c Path.CHAR_FORWARD_SLASH = false) as ->
    by (apply Ascii.eqb_neq; congruence).
  by rewrite IH.
Qed.

Lemma split_slash_single (seg : list ascii) :
  Path.CHAR_FORWARD_SLASH ∉ seg → Path.split_slash seg = [seg].
Proof.
  induction seg as [|c seg IH]; intros Hno; simpl; [done|].
  apply not_elem_of_cons in Hno as [Hc Hseg].
  assert (Ascii.eqb c Path.CHAR_FORWARD_SLASH = false) as ->
    by (apply Ascii.eqb_neq; congruence).
  by rewrite IH.
Qed.

Lemma split_slash_join (segs : list (list ascii)) :
  segs ≠ [] → Forall plain_segment segs →
  Path.split_slash (Path.join_segments segs) = segs.
Proof.
  induction segs as [|seg segs IH]; intros Hne Hall; [done|].
  inversion Hall as [|? ? (_ & _ & _ & Hno) Hrest]; subst.
  destruct segs as [|seg' segs]; simpl.
  - by apply split_slash_single.
  - rewrite split_slash_plain by done. f_equal. by apply IH.
Qed.

Lemma normalize_seg_plain (allowAboveRoot : bool) (res : list (list ascii))
    (seg : list ascii) :
  plain_segment seg → Path.normalize_seg allowAboveRoot res seg = seg :: res.
Proof.
  intros (Hne & Hdot & Hdotdot & _). unfold Path.normalize_seg.
  rewrite (bool_decide_eq_false_2 (seg = [])) by done.
  unfold Path.is_dot, Path.is_dotdot.
  by rewrite !bool_decide_eq_false_2 by done.
Qed.

Lemma normalize_fold_plain (allowAboveRoot : bool) (segs : list (list ascii)) :
  ∀ res, Forall plain_segment segs →
  fold_left (Path.normalize_seg allowAboveRoot) segs res = rev segs ++ res.
Proof.
  induction segs as [|seg segs IH]; intros res Hall; [done|].
  inversion Hall; subst. simpl.
  rewrite normalize_seg_plain, IH by done. by rewrite <- app_assoc.
Qed.

Lemma join_segments_snoc (segs : list (list ascii)) (seg : list ascii) :
  segs ≠ [] →
  Path.join_segments (segs ++ [seg])
  = Path.join_segments segs ++ Path.CHAR_FORWARD_SLASH :: seg.
Proof.
  induction segs as [|s segs IH]; intros Hne; [done|].
  destruct segs as [|s' segs]; [done|].
  change (Path.join_segments ((s :: s' :: segs) ++ [seg]))
    with (s ++ Path.CHAR_FORWARD_SLASH
            :: Path.join_segments ((s' :: segs) ++ [seg])).
  rewrite IH by done. simpl. by rewrite <- app_assoc.
Qed.

Lemma join_segments_last (segs : list (list ascii)) :
  segs ≠ [] → Forall plain_segment segs →
  Path.join_segments segs ≠ []
  ∧ last (Path.join_segments segs) ≠ Some Path.CHAR_FORWARD_SLASH.
Proof.
  induction segs as [|seg segs IH] using rev_ind; intros Hne Hall; [done|].
  apply Forall_app in Hall as [Hsegs Hseg].
  inversion Hseg as [|? ? (Hseg_ne & _ & _ & Hno) _]; subst.
  destruct seg as [|c seg _] using rev_ind; [done|].
  assert (c ≠ Path.CHAR_FORWARD_SLASH) as Hc.
  { intros ->. apply Hno. apply elem_of_app. right. apply list_elem_of_here. }
  destruct segs as [|s segs].
  - simpl. split; [by destruct seg|]. rewrite last_snoc. congruence.
  - rewrite join_segments_snoc by done. split.
    + by destruct (Path.join_segments (s :: segs)).
    + rewrite app_comm_cons, app_assoc, last_snoc. congruence.
Qed.

(** An absolute path made of plain segments is its own normal form. *)
Lemma normalize_absolute (segs : list (list ascii)) :
  segs ≠ [] → Forall plain_segment segs →
  Path.normalize_chars (Path.CHAR_FORWARD_SLASH :: Path.join_segments segs)
  = Path.CHAR_FORWARD_SLASH :: Path.join_segments segs.
Proof.
  intros Hne Hall. unfold Path.normalize_chars.
  change (Ascii.eqb Path.CHAR_FORWARD_SLASH Path.CHAR_FORWARD_SLASH) with true.
  destruct (join_segments_last segs Hne Hall) as [Hjoin Hlast].
  assert (Path.normalizeString
            (Path.CHAR_FORWARD_SLASH :: Path.join_segments segs) (negb true)
          = Path.join_segments segs) as ->.
  { unfold Path.normalizeString, Path.normalizeSegments. simpl.
    rewrite split_slash_join by done. simpl.
    rewrite normalize_fold_plain by done.
    by rewrite app_nil_r, rev_involutive. }
  rewrite bool_decide_eq_false_2.
  - by destruct (Path.join_segments segs).
  - destruct (Path.join_segments segs) as [|c l] eqn:Hj; [done|].
    rewrite last_cons.
    destruct (last (c :: l)) as [y|] eqn:Hy; [congruence|].
    by apply last_None in Hy.
Qed.

(** ** The shape of an extension *)

Lemma ext_inv_result (pre suf : list ascii) (st : Path.ExtState) :
  ext_inv (length pre) suf st → ext_result (pre ++ suf) st.
Proof.
  intros [(Hend & _)|(_ & Hk & Hslash & [[Hsd _]|(Hsd & e & He & Hdot)])].
  - right. by left.
  - by left.
  - right. right. exists e. split.
    + unfold Path.slice. rewrite <- He. unfold ext_seen.
      rewrite drop_app_ge by lia.
      rewrite take_drop_commute. do 2 f_equal. lia.
    + apply Forall_forall. intros c Hc. split.
      * intros ->. done.
      * intros ->. apply Hslash.
        apply (subseteq_drop (Z.to_nat (Path.startDot st) - length pre)).
        rewrite He. by apply list_elem_of_further.
Qed.

Lemma ext_seen_cons (k : nat) (c : ascii) (suf : list ascii)
    (st : Path.ExtState) :
  Z.of_nat (S k) ≤ Path.end_ st →
  ext_seen k (c :: suf) st = c :: ext_seen (S k) suf st.
Proof.
  intros Hk. unfold ext_seen.
  replace (Z.to_nat (Path.end_ st) - k)%nat
    with (S (Z.to_nat (Path.end_ st) - S k)) by lia.
  done.
Qed.

(** One turn of the loop on a character other than '/'. *)
Lemma ext_char_inv (k : nat) (c : ascii) (suf : list ascii)
    (st : Path.ExtState) :
  c ≠ Path.CHAR_FORWARD_SLASH →
  ext_inv (S k) suf st →
  ext_inv k (c :: suf) (Path.ext_char c (Z.of_nat k) st).
Proof.
  intros Hc [(Hend & Hsd & Hms)|(Hms & Hk & Hslash & Hdots)].
  - (* the first character of the component *)
    right. unfold Path.ext_char. rewrite Hend. simpl. rewrite Hsd. simpl.
    destruct (Ascii.eqb c Path.CHAR_DOT) eqn:Hdot; simpl.
    + apply Ascii.eqb_eq in Hdot as ->.
      split; [done|]. split; [lia|]. unfold ext_seen. simpl.
      replace (Z.to_nat (Z.of_nat k + 1) - k)%nat with 1%nat by lia.
      split; [by intros ?%list_elem_of_singleton|].
      right. split; [lia|]. exists [].
      replace (Z.to_nat (Z.of_nat k) - k)%nat with 0%nat by lia.
      split; [done|]. by intros ?%elem_of_nil.
    + apply Ascii.eqb_neq in Hdot.
      split; [done|]. split; [lia|]. unfold ext_seen. simpl.
      replace (Z.to_nat (Z.of_nat k + 1) - k)%nat with 1%nat by lia.
      split; [intros ?%list_elem_of_singleton; congruence|].
      left. split; [done|]. intros ?%list_elem_of_singleton; congruence.
  - (* a further character of the component *)
    right.
    assert ((Path.end_ st =? -1) = false) as Hend by (apply Z.eqb_neq; lia).
    assert (Path.end_ (Path.ext_char c (Z.of_nat k) st) = Path.end_ st
            ∧ Path.matchedSlash (Path.ext_char c (Z.of_nat k) st) = false)
      as [Eend Ems].
    { unfold Path.ext_char. rewrite Hend.
      destruct (Ascii.eqb c Path.CHAR_DOT), (Path.startDot st =? -1),
        (Path.preDotState st =? 1); simpl; done. }
    assert (ext_seen k (c :: suf) (Path.ext_char c (Z.of_nat k) st)
            = c :: ext_seen (S k) suf st) as Eseen.
    { unfold ext_seen. rewrite Eend.
      replace (Z.to_nat (Path.end_ st) - k)%nat
        with (S (Z.to_nat (Path.end_ st) - S k)) by lia.
      done. }
    split; [done|]. split; [lia|]. rewrite Eseen.
    split; [by intros [?|?]%elem_of_cons|].
    destruct Hdots as [[Hsd Hnodot]|(Hsd & e & He & Hnodot)].
    + destruct (Ascii.eqb c Path.CHAR_DOT) eqn:Hdot.
      * apply Ascii.eqb_eq in Hdot as ->.
        right. unfold Path.ext_char. rewrite Hend.
        change (Ascii.eqb Path.CHAR_DOT Path.CHAR_DOT) with true.
        rewrite Hsd. simpl. split; [lia|].
        exists (ext_seen (S k) suf st).
        replace (Z.to_nat (Z.of_nat k) - k)%nat with 0%nat by lia. done.
      * left. unfold Path.ext_char. rewrite Hend, Hdot, Hsd. simpl.
        split; [done|]. apply Ascii.eqb_neq in Hdot.
        by intros [?|?]%elem_of_cons.
    + right.
      assert (Path.startDot (Path.ext_char c (Z.of_nat k) st)
              = Path.startDot st) as ->.
      { unfold Path.ext_char. rewrite Hend.
        replace (Path.startDot st =? -1) with false
          by (symmetry; apply Z.eqb_neq; lia).
        destruct (Ascii.eqb c Path.CHAR_DOT), (Path.preDotState st =? 1);
          simpl; done. }
      split; [lia|]. exists e.
      replace (Z.to_nat (Path.startDot st) - k)%nat
        with (S (Z.to_nat (Path.startDot st) - S k)) by lia.
      done.
Qed.

Lemma ext_loop_result (rcs : list ascii) :
  ∀ (suf : list ascii) (st : Path.ExtState),
  ext_inv (length rcs) suf st →
  ext_result (rev rcs ++ suf)
    (Path.ext_loop rcs (Z.of_nat (length rcs) - 1) st).
Proof.
  induction rcs as [|c rest IH]; intros suf st Hinv.
  - by apply (ext_inv_result []).
  - cbn [Path.ext_loop rev length].
    replace (Z.of_nat (S (length rest)) - 1) with (Z.of_nat (length rest))
      by lia.
    replace (Z.of_nat (length rest) - 1 + 1 - 1)
      with (Z.of_nat (length rest) - 1) by lia.
    rewrite <- app_assoc. change ([c] ++ suf) with (c :: suf).
    destruct (Ascii.eqb c Path.CHAR_FORWARD_SLASH) eqn:Hslash.
    + destruct (Path.matchedSlash st) eqn:Hms; simpl.
      * apply IH. left.
        destruct Hinv as [?|(Hms' & _)]; [done|congruence].
      * change (c :: suf) with ([c] ++ suf). rewrite app_assoc.
        assert (ext_result ((rev rest ++ [c]) ++ suf) st) as Hres.
        { apply ext_inv_result. by rewrite length_app, length_rev, Nat.add_1_r. }
        destruct Hres as [?|[?|?]]; [by left|right; by left|right; by right].
    + replace (Z.of_nat (length rest) - 1) with (Z.of_nat (length rest) - 1)
        by done.
      apply IH. apply ext_char_inv; [|done].
      by apply Ascii.eqb_neq.
Qed.

(** [path.extname] answers the empty string or a dot followed by characters
    that are neither dots nor separators. *)
Lemma extname_chars_shape (cs : list ascii) :
  Path.extname_chars cs = []
  ∨ ∃ e, Path.extname_chars cs = Path.CHAR_DOT :: e ∧ Forall plain_char e.
Proof.
  unfold Path.extname_chars.
  destruct (Path.ext_none _) eqn:Hnone; [by left|].
  assert (ext_inv (length (rev cs)) [] Path.ext_init) as Hinv by (by left).
  apply ext_loop_result in Hinv as Hres.
  rewrite length_rev, rev_involutive, app_nil_r in Hres.
  destruct Hres as [Hsd|[Hend|He]].
  - unfold Path.ext_none in Hnone. rewrite Hsd in Hnone. done.
  - unfold Path.ext_none in Hnone. rewrite Hend in Hnone.
    by rewrite orb_true_r in Hnone.
  - by right.
Qed.

Lemma str_app (a b : list ascii) :
  Path.str (a ++ b) = Path.str a +:+ Path.str b.
Proof. induction a as [|c a IH]; simpl; [done|]. by rewrite IH. Qed.

Lemma js_or_extname_shape (name : string) :
  ∃ e : string, js_or (Path.extname name) ".mp4" = "." +:+ e
                ∧ Forall plain_char (Path.chars e).
Proof.
  unfold js_or. destruct (decide (Path.extname name = "")) as [Hnone|Hsome].
  - exists "mp4". split; [done|]. repeat constructor; discriminate.
  - unfold Path.extname in *.
    destruct (extname_chars_shape (Path.chars name)) as [Hnil|(e & He & Hplain)].
    + by rewrite Hnil in Hsome.
    + exists (Path.str e). rewrite He. split; [done|]. by rewrite chars_str.
Qed.

(** X1. Whatever the declared original name, the stored file name is the
    uuid, a dot, and characters that are neither dots nor separators. *)
Theorem stored_name_shape (uuid : string) (file : IncomingFile) :
  ∃ e : string,
    storage_filename uuid file = uuid +:+ "." +:+ e
    ∧ Forall plain_char (Path.chars e).
Proof.
  destruct (js_or_extname_shape (originalname file)) as (e & He & Hplain).
  exists e. unfold storage_filename. by rewrite He.
Qed.

(** Plain characters after the dot and its neighbour leave the loop's state
    as it is. *)
Lemma ext_loop_plain_settled (l : list ascii) :
  ∀ (i sd sp en : Z),
  Forall plain_char l → sd ≠ -1 → en ≠ -1 →
  Path.ext_loop l i (Path.mkExt sd sp en false (-1))
  = Path.mkExt sd sp en false (-1).
Proof.
  induction l as [|c l IH]; intros i sd sp en Hall Hsd Hen; [done|].
  inversion Hall as [|? ? [Hdot Hslash] Hrest]; subst. simpl.
  apply Ascii.eqb_neq in Hdot, Hslash. rewrite Hslash.
  unfold Path.ext_char. simpl.
  apply Z.eqb_neq in Hsd as Hsd', Hen as Hen'. rewrite Hen', Hdot. simpl.
  rewrite Hsd'. simpl. by apply IH.
Qed.

Lemma ext_char_first_dot (i : Z) :
  Path.ext_char Path.CHAR_DOT i Path.ext_init = Path.mkExt i 0 (i + 1) false 0.
Proof. reflexivity. Qed.

Lemma ext_char_plain_after (c : ascii) (i sd en p : Z) :
  plain_char c → sd ≠ -1 → en ≠ -1 →
  Path.ext_char c i (Path.mkExt sd 0 en false p) = Path.mkExt sd 0 en false (-1).
Proof.
  intros [Hdot _] Hsd Hen. apply Ascii.eqb_neq in Hdot.
  apply Z.eqb_neq in Hsd, Hen.
  unfold Path.ext_char. simpl. rewrite Hen, Hdot. simpl. by rewrite Hsd.
Qed.

Lemma extname_chars_trailing_dot (stem : list ascii) (c : ascii) :
  Forall plain_char stem → plain_char c →
  Path.extname_chars ((stem ++ [c]) ++ [Path.CHAR_DOT]) = [Path.CHAR_DOT].
Proof.
  intros Hstem Hc. unfold Path.extname_chars.
  assert (rev ((stem ++ [c]) ++ [Path.CHAR_DOT])
          = Path.CHAR_DOT :: c :: rev stem) as ->.
  { rewrite !rev_app_distr. done. }
  assert (Z.of_nat (length ((stem ++ [c]) ++ [Path.CHAR_DOT]))
          = Z.of_nat (length (stem ++ [c])) + 1) as ->.
  { rewrite (length_app (stem ++ [c])). simpl. lia. }
  set (n := Z.of_nat (length (stem ++ [c]))).
  assert (1 ≤ n) as Hn by (unfold n; rewrite length_app; simpl; lia).
  cbn [Path.ext_loop].
  change (Ascii.eqb Path.CHAR_DOT Path.CHAR_FORWARD_SLASH) with false.
  rewrite ext_char_first_dot.
  destruct Hc as [Hdot Hslash]. apply Ascii.eqb_neq in Hslash as Hslash'.
  rewrite Hslash'.
  rewrite ext_char_plain_after by (done || lia).
  rewrite ext_loop_plain_settled; [|by apply Forall_rev|lia|lia].
  unfold Path.ext_none. cbn [Path.startDot Path.end_ Path.preDotState].
  replace (n + 1 - 1 =? -1) with false by (symmetry; apply Z.eqb_neq; lia).
  replace (n + 1 - 1 + 1 =? -1) with false
    by (symmetry; apply Z.eqb_neq; lia).
  cbn [orb andb Z.eqb]. unfold Path.slice.
  replace (Z.to_nat (n + 1 - 1)) with (length (stem ++ [c])) by lia.
  rewrite drop_app_length.
  replace (Z.to_nat (n + 1 - 1 + 1 - (n + 1 - 1))) with 1%nat by lia.
  done.
Qed.

(** After a plain, non-empty stem the extension is read back as written. *)
Lemma extname_plain_stem (stem e : string) :
  stem ≠ "" → Forall plain_char (Path.chars stem) →
  Forall plain_char (Path.chars e) →
  Path.extname (stem +:+ "." +:+ e) = "." +:+ e.
Proof.
  intros Hne Hstem He.
  destruct (Path.chars stem) as [|c cs _] eqn:Hcs using rev_ind.
  { exfalso. apply Hne. by rewrite <- (str_chars stem), Hcs. }
  apply Forall_app in Hstem as [Hcs' Hc]. inversion Hc as [|? ? Hc' _]; subst.
  destruct (decide (e = "")) as [->|Hene].
  - unfold Path.extname. rewrite !chars_app, Hcs.
    change (Path.chars "." ++ Path.chars "") with [Path.CHAR_DOT].
    by rewrite extname_chars_trailing_dot.
  - apply (extname_suffix stem e c); [|apply Hc'|done|done].
    rewrite Hcs. apply last_snoc.
Qed.

(** X2. The extension of the stored name, read back with [path.extname], is
    the extension chosen from the original name. *)
Theorem stored_name_extension (uuid : string) (file : IncomingFile) :
  uuid ≠ "" → Forall plain_char (Path.chars uuid) →
  Path.extname (storage_filename uuid file)
  = js_or (Path.extname (originalname file)) ".mp4".
Proof.
  intros Hne Hplain.
  destruct (js_or_extname_shape (originalname file)) as (e & He & Hplain').
  unfold storage_filename. rewrite He. by apply extname_plain_stem.
Qed.

Lemma stored_name_extension_witness :
  Path.extname (storage_filename "3f2b8c1e-9a4d-4e6f-8b7a-1c2d3e4f5a6b"
                  (mkIncoming "video" "../a.b/holiday.2024.MOV" "video/mp4"))
  = ".MOV".
Proof.
  apply (stored_name_extension "3f2b8c1e-9a4d-4e6f-8b7a-1c2d3e4f5a6b"
           (mkIncoming "video" "../a.b/holiday.2024.MOV" "video/mp4")).
  - discriminate.
  - repeat constructor; discriminate.
Defined.

(** ** Paths of plain names stay in the upload directory *)

Lemma string_prefix_app (a b : string) : String.prefix a (a +:+ b) = true.
Proof.
  induction a as [|c a IH]; simpl; [by destruct b|].
  by destruct (ascii_dec c c).
Qed.

Lemma string_app_assoc (a b c : string) :
  a +:+ (b +:+ c) = (a +:+ b) +:+ c.
Proof.
  induction a as [|x a IH]; [done|].
  change (String x (a +:+ (b +:+ c)) = String x ((a +:+ b) +:+ c)).
  by f_equal.
Qed.

Lemma absolute_path_snoc (segs : list (list ascii)) (seg : list ascii) :
  segs ≠ [] →
  absolute_path (segs ++ [seg]) = absolute_path segs +:+ "/" +:+ Path.str seg.
Proof.
  intros Hne. unfold absolute_path. rewrite join_segments_snoc by done.
  rewrite app_comm_cons, str_app. done.
Qed.

Lemma join_absolute_plain (segs : list (list ascii)) (seg : list ascii) :
  segs ≠ [] → Forall plain_segment segs → plain_segment seg →
  Path.join [absolute_path segs; Path.str seg] = absolute_path (segs ++ [seg]).
Proof.
  intros Hne Hsegs Hseg. unfold Path.join.
  rewrite filter_cons_True by done.
  rewrite filter_cons_True.
  2:{ destruct Hseg as [Hnil _]. destruct seg; [done|discriminate]. }
  cbn [filter list_filter fold_left]. unfold Path.normalize.
  rewrite !chars_app. unfold absolute_path at 1. rewrite !chars_str.
  change (Path.chars "/" ++ seg) with (Path.CHAR_FORWARD_SLASH :: seg).
  rewrite <- app_comm_cons, <- join_segments_snoc by done.
  rewrite normalize_absolute; [done|by destruct segs|].
  apply Forall_app. split; [done|by constructor].
Qed.

Lemma plain_segment_uploads : plain_segment (Path.chars "uploads").
Proof.
  repeat split; try discriminate.
  intros Hin. repeat (apply elem_of_cons in Hin as [Hin|Hin]; [discriminate|]).
  by apply elem_of_nil in Hin.
Qed.

Lemma uploadDir_absolute (segs : list (list ascii)) :
  Forall plain_segment segs →
  uploadDir (absolute_path segs)
  = absolute_path (segs ++ [Path.chars "uploads"]).
Proof.
  intros Hsegs. destruct (decide (segs = [])) as [->|Hne]; [done|].
  unfold uploadDir.
  change "uploads" with (Path.str (Path.chars "uploads")) at 1.
  apply join_absolute_plain; [done..|apply plain_segment_uploads].
Qed.

(** The path the server computes for a plain name is the upload directory,
    a separator and the name. *)
Lemma entry_path_plain (segs : list (list ascii)) (name : string) :
  Forall plain_segment segs → plain_segment (Path.chars name) →
  entry_path (absolute_path segs) name
  = uploadDir (absolute_path segs) +:+ "/" +:+ name
  ∧ within (uploadDir (absolute_path segs))
      (entry_path (absolute_path segs) name) = true.
Proof.
  intros Hsegs Hname.
  assert (entry_path (absolute_path segs) name
          = uploadDir (absolute_path segs) +:+ "/" +:+ name) as Hpath.
  { unfold entry_path. rewrite uploadDir_absolute by done.
    rewrite <- (str_chars name) at 1.
    rewrite join_absolute_plain, absolute_path_snoc, str_chars;
      [done|by destruct segs|by destruct segs| |done].
    apply Forall_app. split; [done|]. constructor; [|done].
    apply plain_segment_uploads. }
  split; [done|]. rewrite Hpath. unfold within.
  rewrite (string_app_assoc _ "/" name), string_prefix_app.
  apply orb_true_r.
Qed.

Lemma stored_name_plain (uuid : string) (file : IncomingFile) :
  plain_uuid uuid → plain_segment (Path.chars (storage_filename uuid file)).
Proof.
  intros [Hne Hplain].
  destruct (js_or_extname_shape (originalname file)) as (e & Hext & He).
  unfold storage_filename. rewrite Hext.
  rewrite !chars_app. change (Path.chars ".") with [Path.CHAR_DOT].
  destruct (Path.chars uuid) as [|c cs] eqn:Hcs.
  { exfalso. apply Hne. by rewrite <- (str_chars uuid), Hcs. }
  inversion Hplain as [|? ? [Hdot Hslash] Hrest]; subst.
  split; [done|]. split; [intros [= -> _]; done|].
  split; [intros [= -> _]; done|].
  intros Hin. rewrite <- app_comm_cons in Hin.
  apply elem_of_cons in Hin as [Hin|Hin]; [by symmetry in Hin|].
  apply elem_of_app in Hin as [Hin|Hin].
  - rewrite Forall_forall in Hrest. by destruct (Hrest _ Hin).
  - apply elem_of_cons in Hin as [Hin|Hin]; [discriminate|].
    rewrite Forall_forall in He. by destruct (He _ Hin).
Qed.

(** X3. A stored upload lies in the upload directory, directly under it,
    whatever the declared original name. *)
Theorem stored_path_in_upload_dir (segs : list (list ascii)) (uuid : string)
    (now : Z) (file : IncomingFile) (w : World) :
  Forall plain_segment segs → plain_uuid uuid → fieldname file = "video" →
  let cwd := absolute_path segs in
  ∃ f : MulterFile,
    (upload_single cwd uuid now (ParseFile file) w).1.2 = Some f
    ∧ path f = uploadDir cwd +:+ "/" +:+ storage_filename uuid file
    ∧ within (uploadDir cwd) (path f) = true
    ∧ is_Some (disk (upload_single cwd uuid now (ParseFile file) w).2
               !! path f).
Proof.
  intros Hsegs Huuid Hfield cwd. rewrite upload_single_file by done.
  eexists. split; [done|]. cbn [path disk snd].
  destruct (entry_path_plain segs (storage_filename uuid file) Hsegs)
    as [Hpath Hwithin]; [by apply stored_name_plain|].
  unfold entry_path in Hpath, Hwithin. fold cwd in Hpath, Hwithin.
  split; [done|]. split; [done|]. by rewrite lookup_insert_eq.
Qed.

Lemma stored_path_in_upload_dir_witness :
  ∃ f : MulterFile,
    (upload_single "/srv/app" "3f2b8c1e-9a4d-4e6f-8b7a-1c2d3e4f5a6b" 7
       (ParseFile (mkIncoming "video" "../../etc/cron.d/job.sh" "video/mp4"))
       (mkWorld ∅ [])).1.2 = Some f
    ∧ path f = "/srv/app/uploads/3f2b8c1e-9a4d-4e6f-8b7a-1c2d3e4f5a6b.sh".
Proof.
  destruct (stored_path_in_upload_dir
              [Path.chars "srv"; Path.chars "app"]
              "3f2b8c1e-9a4d-4e6f-8b7a-1c2d3e4f5a6b" 7
              (mkIncoming "video" "../../etc/cron.d/job.sh" "video/mp4")
              (mkWorld ∅ []))
    as (f & Hf & Hpath & _).
  - repeat constructor; try discriminate;
      intros Hin;
      repeat (apply elem_of_cons in Hin as [Hin|Hin]; [discriminate|]);
      by apply elem_of_nil in Hin.
  - split; [discriminate|repeat constructor; discriminate].
  - reflexivity.
  - exists f. split; [exact Hf|exact Hpath].
Defined.

(** X4. For an id that is a plain file name, [GET /v/:id] looks at the file of
    that name directly under the upload directory, and answers 200 exactly
    when it exists. *)
Theorem view_plain_id (segs : list (list ascii)) (w : World) (id : string) :
  Forall plain_segment segs → plain_segment (Path.chars id) →
  let cwd := absolute_path segs in
  get_v_filePath cwd id = uploadDir cwd +:+ "/" +:+ id
  ∧ within (uploadDir cwd) (get_v_filePath cwd id) = true
  ∧ (status (get_v cwd w id) = 200
     ↔ is_Some (disk w !! (uploadDir cwd +:+ "/" +:+ id)))
  ∧ (status (get_v cwd w id) = 404
     ↔ disk w !! (uploadDir cwd +:+ "/" +:+ id) = None).
Proof.
  intros Hsegs Hid cwd.
  destruct (entry_path_plain segs id Hsegs Hid) as [Hpath Hwithin].
  fold cwd in Hpath, Hwithin. unfold entry_path in *.
  unfold get_v_filePath. split; [done|]. split; [done|].
  rewrite get_v_status. unfold entry_path. rewrite Hpath.
  destruct (disk w !! _) as [f|]; split; split; try done; eauto.
Qed.

Lemma view_plain_id_witness :
  get_v_filePath "/srv/app" "3f2b8c1e-9a4d-4e6f-8b7a-1c2d3e4f5a6b.mov"
  = "/srv/app/uploads/3f2b8c1e-9a4d-4e6f-8b7a-1c2d3e4f5a6b.mov".
Proof.
  refine (proj1 (view_plain_id [Path.chars "srv"; Path.chars "app"]
                   (mkWorld ∅ []) "3f2b8c1e-9a4d-4e6f-8b7a-1c2d3e4f5a6b.mov"
                   _ _)).
  - repeat constructor; try discriminate;
      intros Hin;
      repeat (apply elem_of_cons in Hin as [Hin|Hin]; [discriminate|]);
      by apply elem_of_nil in Hin.
  - repeat split; try discriminate.
    intros Hin.
    repeat (apply elem_of_cons in Hin as [Hin|Hin]; [discriminate|]).
    by apply elem_of_nil in Hin.
Defined.

(** ** More on the sweep *)

(** X5. A sweep never creates or alters a file: what is on disk afterwards
    was there before, unchanged. *)
Theorem sweep_only_removes (cwd : string) (now : Z)
    (readdir : ErrnoException + list string) (w : World) :
  disk (cleanup cwd now readdir w) ⊆ disk w.
Proof.
  apply map_subseteq_spec. intros p f Hp.
  destruct (cleanup_only_removes cwd now readdir w p); congruence.
Qed.

Lemma cleanup_unlisted (cwd : string) (now : Z) (files : list string)
    (w : World) (p : string) :
  p ∉ entry_path cwd <$> files →
  disk (cleanup cwd now (inr files) w) !! p = disk w !! p.
Proof.
  intros Hnot. pose proof (cleanup_lookup cwd now files w p) as Hlookup.
  destruct (disk w !! p) as [f|]; [|done].
  rewrite bool_decide_eq_false_2 in Hlookup by done.
  by rewrite andb_false_r in Hlookup.
Qed.

(** Plain directory entries name paths inside the upload directory only. *)
Lemma plain_entries_within (segs : list (list ascii)) (files : list string)
    (p : string) :
  Forall plain_segment segs →
  Forall (λ file, plain_segment (Path.chars file)) files →
  within (uploadDir (absolute_path segs)) p = false →
  p ∉ entry_path (absolute_path segs) <$> files.
Proof.
  intros Hsegs Hfiles Hout (file & -> & Hin)%list_elem_of_fmap.
  rewrite Forall_forall in Hfiles.
  destruct (entry_path_plain segs file Hsegs (Hfiles _ Hin)) as [_ Hwithin].
  congruence.
Qed.

(** X6. A sweep leaves alone every path that no entry of its directory
    snapshot names, for instance an upload that arrived after [readdir]. *)
Theorem sweep_spares_unlisted (cwd : string) (now : Z) (files : list string)
    (w : World) (p : string) :
  p ∉ entry_path cwd <$> files →
  disk (cleanup cwd now (inr files) w) !! p = disk w !! p.
Proof.
  intros Hnot. rewrite cleanup_lookup.
  destruct (disk w !! p) as [f|]; [|done].
  rewrite bool_decide_eq_false_2 by done. by rewrite andb_false_r.
Qed.

Lemma sweep_spares_unlisted_witness :
  let w := mkWorld
    {[ "/srv/app/uploads/old.mp4" := mkFile 0 0 None None;
       "/srv/app/uploads/late.mp4" := mkFile 0 0 None None ]} [] in
  disk (cleanup "/srv/app" 7200000 (inr ["old.mp4"]) w)
    !! "/srv/app/uploads/late.mp4"
  = disk w !! "/srv/app/uploads/late.mp4".
Proof.
  cbv zeta. apply sweep_spares_unlisted.
  intros Hin. apply list_elem_of_singleton in Hin. discriminate Hin.
Defined.

(** X7. With a listing of plain names, a sweep changes nothing outside the
    upload directory. *)
Theorem sweep_confined (segs : list (list ascii)) (now : Z)
    (files : list string) (w : World) (p : string) :
  Forall plain_segment segs →
  Forall (λ file, plain_segment (Path.chars file)) files →
  within (uploadDir (absolute_path segs)) p = false →
  disk (cleanup (absolute_path segs) now (inr files) w) !! p = disk w !! p.
Proof.
  intros Hsegs Hfiles Hout. rewrite cleanup_lookup.
  destruct (disk w !! p) as [f|]; [|done].
  rewrite bool_decide_eq_false_2; [by rewrite andb_false_r|].
  by apply plain_entries_within.
Qed.

Lemma sweep_confined_witness :
  let w := mkWorld
    {[ "/srv/app/uploads/old.mp4" := mkFile 0 0 None None;
       "/srv/app/server.ts" := mkFile 0 0 None None ]} [] in
  disk (cleanup "/srv/app" 7200000 (inr ["old.mp4"; "server.ts"]) w)
    !! "/srv/app/server.ts"
  = Some (mkFile 0 0 None None).
Proof.
  cbv zeta.
  rewrite (sweep_confined [Path.chars "srv"; Path.chars "app"] 7200000
             ["old.mp4"; "server.ts"] _ "/srv/app/server.ts").
  - reflexivity.
  - repeat constructor; try discriminate;
      intros Hin;
      repeat (apply elem_of_cons in Hin as [Hin|Hin]; [discriminate|]);
      by apply elem_of_nil in Hin.
  - repeat constructor; try discriminate;
      intros Hin;
      repeat (apply elem_of_cons in Hin as [Hin|Hin]; [discriminate|]);
      by apply elem_of_nil in Hin.
  - reflexivity.
Defined.

Lemma cleanup_file_noop (cwd : string) (now : Z) (w : World) (file : string) :
  (∀ f, disk w !! entry_path cwd file = Some f → reaped now f = false) →
  cleanup_file cwd now w file = w.
Proof.
  intros Hkeep. unfold cleanup_file, fs_stat, fs_unlink.
  fold (entry_path cwd file).
  destruct (disk w !! entry_path cwd file) as [f|]; [|done].
  specialize (Hkeep f eq_refl). unfold reaped in Hkeep.
  destruct (stat_err f); [done|]. simpl in Hkeep.
  destruct (now - mtimeMs f >? MAX_AGE); [|done]. simpl in Hkeep.
  destruct (unlink_err f); done.
Qed.

Lemma cleanup_noop (cwd : string) (now : Z) (files : list string) (w : World) :
  (∀ file f, file ∈ files → disk w !! entry_path cwd file = Some f →
             reaped now f = false) →
  cleanup cwd now (inr files) w = w.
Proof.
  unfold cleanup. induction files as [|file files IH]; intros Hkeep; [done|].
  cbn [fold_left]. rewrite cleanup_file_noop.
  - apply IH. intros file' f Hin. apply Hkeep. by apply list_elem_of_further.
  - intros f. apply Hkeep. apply list_elem_of_here.
Qed.

(** X8. Sweeping again with the same listing at the same time changes
    nothing more: neither a file nor a log line. *)
Theorem sweep_idempotent (cwd : string) (now : Z) (files : list string)
    (w : World) :
  cleanup cwd now (inr files) (cleanup cwd now (inr files) w)
  = cleanup cwd now (inr files) w.
Proof.
  apply cleanup_noop. intros file f Hin. rewrite cleanup_lookup.
  destruct (disk w !! entry_path cwd file) as [g|]; [|done].
  destruct (reaped now g) eqn:Hg; simpl.
  - rewrite bool_decide_eq_true_2; [done|]. by apply list_elem_of_fmap_2.
  - by intros [= <-].
Qed.

(** X9. The files left by a sweep do not depend on the order in which the
    entries of the listing are worked off. *)
Theorem sweep_order_irrelevant (cwd : string) (now : Z)
    (files files' : list string) (w : World) :
  files ≡ₚ files' →
  disk (cleanup cwd now (inr files) w) = disk (cleanup cwd now (inr files') w).
Proof. apply cleanup_disk_order. Qed.

Lemma sweep_order_irrelevant_witness :
  let w := mkWorld
    {[ "/srv/app/uploads/a.mp4" := mkFile 0 0 None None;
       "/srv/app/uploads/b.mp4" := mkFile 0 0 None (Some EPERM);
       "/srv/app/uploads/c.mp4" := mkFile 0 6000000 None None ]} [] in
  disk (cleanup "/srv/app" 7200000 (inr ["a.mp4"; "b.mp4"; "c.mp4"]) w)
  = disk (cleanup "/srv/app" 7200000 (inr ["c.mp4"; "a.mp4"; "b.mp4"]) w).
Proof.
  cbv zeta. apply sweep_order_irrelevant.
  apply Permutation_sym.
  apply (Permutation_cons_append ["a.mp4"; "b.mp4"] "c.mp4").
Defined.



(** ** More on uploads and runs *)



(** X12. Whatever uploads, sweeps and views happen, with plain uuids and
    plain directory entries, no path outside the upload directory is ever
    created, changed or removed. *)
Theorem server_stays_in_upload_dir (segs : list (list ascii))
    (es : list Event) (p : string) :
  ∀ w : World,
  Forall plain_segment segs → Forall event_plain es →
  within (uploadDir (absolute_path segs)) p = false →
  disk (run (absolute_path segs) w es) !! p = disk w !! p.
Proof.
  induction es as [|e es IH]; intros w Hsegs Hes Hout; [done|].
  inversion Hes as [|? ? He Hrest]; subst. cbn [run fold_left].
  change (fold_left (step (absolute_path segs)) es ?w')
    with (run (absolute_path segs) w' es).
  rewrite IH by done.
  destruct e as [now [err|files]|uuid now parsed|id]; cbn [step].
  - done.
  - apply cleanup_unlisted. by apply plain_entries_within.
  - apply upload_lookup. destruct parsed as [| |file]; [done..|].
    simpl. intros Heq.
    destruct (entry_path_plain segs (storage_filename uuid file) Hsegs)
      as [_ Hwithin]; [by apply stored_name_plain|].
    congruence.
  - done.
Qed.

Lemma server_stays_in_upload_dir_witness :
  let w := mkWorld {[ "/etc/passwd" := mkFile 0 0 None None ]} [] in
  disk (run "/srv/app" w
          [Upload "3f2b8c1e-9a4d-4e6f-8b7a-1c2d3e4f5a6b" 0
             (ParseFile (mkIncoming "video" "../../../etc/passwd" "video/mp4"));
           View "../../../etc/passwd";
           Sweep 7200000 (inr ["3f2b8c1e-9a4d-4e6f-8b7a-1c2d3e4f5a6b.mp4"])])
    !! "/etc/passwd"
  = Some (mkFile 0 0 None None).
Proof.
  cbv zeta.
  rewrite (server_stays_in_upload_dir [Path.chars "srv"; Path.chars "app"]).
  - reflexivity.
  - repeat constructor; try discriminate;
      intros Hin;
      repeat (apply elem_of_cons in Hin as [Hin|Hin]; [discriminate|]);
      by apply elem_of_nil in Hin.
  - repeat constructor; try discriminate;
      intros Hin;
      repeat (apply elem_of_cons in Hin as [Hin|Hin]; [discriminate|]);
      by apply elem_of_nil in Hin.
  - reflexivity.
Defined.

Lemma string_app_inj_length (a b x y : string) :
  String.length a = String.length b → a +:+ x = b +:+ y → a = b.
Proof.
  revert b. induction a as [|c a IH]; intros [|d b] Hlen Heq; try done.
  change (String c (a +:+ x) = String d (b +:+ y)) in Heq.
  injection Heq as -> Heq. f_equal. apply IH; [|done]. by injection Hlen.
Qed.

(** X13. Two uploads with different uuids are stored under different names,
    and neither overwrites the other: both are served afterwards. *)
Theorem uploads_do_not_collide (segs : list (list ascii))
    (uuid1 uuid2 : string) (t1 t2 : Z) (file1 file2 : IncomingFile)
    (w : World) :
  Forall plain_segment segs → plain_uuid uuid1 → plain_uuid uuid2 →
  String.length uuid1 = String.length uuid2 → uuid1 ≠ uuid2 →
  fieldname file1 = "video" → fieldname file2 = "video" →
  let cwd := absolute_path segs in
  let name1 := storage_filename uuid1 file1 in
  let name2 := storage_filename uuid2 file2 in
  let w' := run cwd w [Upload uuid1 t1 (ParseFile file1);
                       Upload uuid2 t2 (ParseFile file2)] in
  name1 ≠ name2
  ∧ entry_path cwd name1 ≠ entry_path cwd name2
  ∧ status (get_v cwd w' name1) = 200
  ∧ status (get_v cwd w' name2) = 200.
Proof.
  intros Hsegs Hu1 Hu2 Hlen Hne Hf1 Hf2 cwd name1 name2 w'.
  assert (name1 ≠ name2) as Hnames.
  { intros Heq. apply Hne. by apply (string_app_inj_length _ _ _ _ Hlen Heq). }
  assert (entry_path cwd name1 ≠ entry_path cwd name2) as Hpaths.
  { destruct (entry_path_plain segs name1 Hsegs) as [Hp1 _];
      [by apply stored_name_plain|].
    destruct (entry_path_plain segs name2 Hsegs) as [Hp2 _];
      [by apply stored_name_plain|].
    fold cwd in Hp1, Hp2. rewrite Hp1, Hp2.
    intros Heq. apply string_app_inv_head in Heq.
    by apply (string_app_inv_head "/") in Heq. }
  split; [done|]. split; [done|]. rewrite !get_v_status.
  unfold w'. cbn [run fold_left step]. unfold post_api_upload.
  rewrite !upload_single_file by done. cbn [upload_callback snd disk].
  fold (entry_path cwd name1) (entry_path cwd name2).
  rewrite lookup_insert_ne, !lookup_insert_eq by done. done.
Qed.

Lemma uploads_do_not_collide_witness :
  let w' := run "/srv/app" (mkWorld ∅ [])
              [Upload "3f2b8c1e-9a4d-4e6f-8b7a-1c2d3e4f5a6b" 10
                 (ParseFile (mkIncoming "video" "beach.mov" "video/quicktime"));
               Upload "0a1b2c3d-4e5f-4a6b-8c7d-9e0f1a2b3c4d" 10
                 (ParseFile (mkIncoming "video" "beach.mov" "video/quicktime"))] in
  status (get_v "/srv/app" w' "3f2b8c1e-9a4d-4e6f-8b7a-1c2d3e4f5a6b.mov") = 200
  ∧ status (get_v "/srv/app" w' "0a1b2c3d-4e5f-4a6b-8c7d-9e0f1a2b3c4d.mov") = 200.
Proof.
  cbv zeta.
  refine (proj2 (proj2 (uploads_do_not_collide
    [Path.chars "srv"; Path.chars "app"]
    "3f2b8c1e-9a4d-4e6f-8b7a-1c2d3e4f5a6b"
    "0a1b2c3d-4e5f-4a6b-8c7d-9e0f1a2b3c4d" 10 10
    (mkIncoming "video" "beach.mov" "video/quicktime")
    (mkIncoming "video" "beach.mov" "video/quicktime")
    (mkWorld ∅ []) _ _ _ eq_refl _ eq_refl eq_refl))).
  - repeat constructor; try discriminate;
      intros Hin;
      repeat (apply elem_of_cons in Hin as [Hin|Hin]; [discriminate|]);
      by apply elem_of_nil in Hin.
  - split; [discriminate|repeat constructor; discriminate].
  - split; [discriminate|repeat constructor; discriminate].
  - discriminate.
Defined.

(** ** The browser client *)

(** X14. [handleFile] sends a file exactly when its type starts with "video/"
    and its size is at most 524,288,000 bytes, the server's own limit; the
    type is checked first, so a large file of another type gets the type
    message. *)
Theorem client_guard (file : BrowserFile) :
  (handleFile file = PostUpload file
   ↔ startsWith (file_type file) "video/" = true
     ∧ file_size file ≤ limits_fileSize)
  ∧ limits_fileSize = 524288000
  ∧ (startsWith (file_type file) "video/" = false →
     handleFile file
     = SetError "Please upload a valid video file (MP4, WebM, MOV, etc).")
  ∧ (startsWith (file_type file) "video/" = true →
     file_size file > limits_fileSize →
     handleFile file = SetError "File is too large. Maximum size is 500MB.").
Proof.
  unfold handleFile. change (500 * 1024 * 1024) with 524288000.
  change limits_fileSize with 524288000.
  destruct (startsWith (file_type file) "video/"); simpl.
  - destruct (file_size file >? 524288000) eqn:Hsize.
    + split; [|split; [done|split; [done|done]]].
      split; [done|]. intros [_ Hle]. lia.
    + split; [|split; [done|split; [done|]]].
      * split; [|done]. intros _. split; [done|lia].
      * intros _ Hgt. lia.
  - split; [|split; [done|split; [done|done]]].
    split; [done|]. by intros [? _].
Qed.

Lemma client_guard_witness :
  handleFile (mkBrowserFile "video/mp4" 524288000 "beach.mp4")
  = PostUpload (mkBrowserFile "video/mp4" 524288000 "beach.mp4")
  ∧ handleFile (mkBrowserFile "video/mp4" 524288001 "beach.mp4")
    = SetError "File is too large. Maximum size is 500MB.".
Proof.
  split.
  - apply (proj1 (client_guard _)). split; [reflexivity|].
    unfold limits_fileSize. simpl. lia.
  - apply (proj2 (proj2 (proj2 (client_guard _)))); [reflexivity|].
    unfold limits_fileSize. simpl. lia.
Defined.

Lemma string_prefix_spec (p s : string) :
  String.prefix p s = true ↔ ∃ rest, s = p +:+ rest.
Proof.
  revert s. induction p as [|c p IH]; intros s.
  - split; [|by destruct s]. intros _. by exists s.
  - destruct s as [|d s]; simpl.
    + split; [done|]. by intros [rest Heq].
    + destruct (ascii_dec c d) as [->|Hne].
      * rewrite IH. split; intros [rest Heq]; exists rest.
        -- by rewrite Heq.
        -- change (String d s = String d (p +:+ rest)) in Heq.
           by injection Heq.
      * split; [done|]. intros [rest Heq].
        change (String d s = String c (p +:+ rest)) in Heq.
        injection Heq as Hcd _. by symmetry in Hcd.
Qed.

Lemma indexOf_from_found (s needle : string) :
  ∀ i, 0 ≤ i →
  (indexOf_from s needle i ≠ -1
   ↔ ∃ before after, s = before +:+ needle +:+ after).
Proof.
  induction s as [|c s IH]; intros i Hi; cbn [indexOf_from].
  - destruct (String.prefix needle "") eqn:Hp.
    + split; [|intros _; lia].
      intros _. apply string_prefix_spec in Hp as [rest Heq].
      by exists "", rest.
    + split; [done|]. intros (before & after & Heq).
      destruct before as [|d before]; [|done].
      assert (String.prefix needle "" = true); [|congruence].
      apply string_prefix_spec. by exists after.
  - destruct (String.prefix needle (String c s)) eqn:Hp.
    + split; [|intros _; lia].
      intros _. apply string_prefix_spec in Hp as [rest Heq].
      by exists "", rest.
    + rewrite IH by lia. split; intros (before & after & Heq).
      * exists (String c before), after. by rewrite Heq.
      * destruct before as [|d before].
        -- assert (String.prefix needle (String c s) = true); [|congruence].
           apply string_prefix_spec. by exists after.
        -- change (String c s = String d (before +:+ needle +:+ after)) in Heq.
           injection Heq as _ Heq. by exists before, after.
Qed.

(** X15. The paste handler's test [type.indexOf('video') !== -1] accepts
    exactly the types that contain the text "video" somewhere; every type
    that the guard of [handleFile] accepts is among them. *)
Theorem paste_filter (type : string) :
  (indexOf type "video" ≠ -1
   ↔ ∃ before after, type = before +:+ "video" +:+ after)
  ∧ (startsWith type "video/" = true → indexOf type "video" = 0).
Proof.
  split; [by apply indexOf_from_found|].
  unfold startsWith, indexOf. intros [rest ->]%string_prefix_spec. done.
Qed.

Lemma paste_filter_witness : indexOf "video/webm" "video" = 0.
Proof. apply (proj2 (paste_filter "video/webm")). reflexivity. Defined.

(** X16. [onPaste] hands to [handleFile] the first clipboard item whose type
    mentions "video" and that yields a file, and no other; when there is no
    such item it does nothing. *)
Theorem paste_handles_first_video (items : list ClipboardItem) :
  match onPaste (Some items) with
  | Some result =>
      ∃ before item after file,
        items = before ++ item :: after
        ∧ Forall (λ it, ¬ paste_candidate it) before
        ∧ indexOf (item_type item) "video" ≠ -1
        ∧ item_file item = Some file
        ∧ result = handleFile file
  | None => Forall (λ it, ¬ paste_candidate it) items
  end.
Proof.
  cbn [onPaste]. induction items as [|item items IH]; cbn [onPaste_loop].
  - constructor.
  - destruct (indexOf (item_type item) "video" =? -1) eqn:Hidx; simpl.
    + apply Z.eqb_eq in Hidx.
      destruct (onPaste_loop items) as [result|].
      * destruct IH as (before & it & after & file & -> & Hb & Hi & Hf & Hr).
        exists (item :: before), it, after, file.
        split; [done|]. split; [|done].
        constructor; [|done]. by intros [? _].
      * constructor; [|done]. by intros [? _].
    + apply Z.eqb_neq in Hidx.
      destruct (item_file item) as [file|] eqn:Hfile.
      * exists [], item, items, file. by repeat split.
      * destruct (onPaste_loop items) as [result|].
        -- destruct IH as (before & it & after & file & -> & Hb & Hi & Hf & Hr).
           exists (item :: before), it, after, file.
           split; [done|]. split; [|done].
           constructor; [|done]. intros [_ [? ?]]. congruence.
        -- constructor; [|done]. intros [_ [? ?]]. congruence.
Qed.

Lemma js_or_fallback (a b c : string) :
  b ≠ "" → js_or (js_or a b) c = js_or a b.
Proof.
  intros Hb. unfold js_or at 1.
  destruct (decide (js_or a b = "")) as [Hempty|]; [|done].
  by apply js_or_nonempty with (a := a) in Hb.
Qed.

Lemma handleFile_run_json (origin : string) (file : BrowserFile)
    (response_status : Z) (data : list (string * string)) (st : AppState) :
  handleFile file = PostUpload file →
  handleFile_run origin file (FetchJson response_status data) st
  = if response_ok response_status
    then {| uploading := false;
            videoUrl := Some (origin +:+ js_template (json_get "url" data));
            error := None; copied := false |}
    else {| uploading := false; videoUrl := None;
            error := Some (js_or_undefined (json_get "error" data)
                             "Upload failed");
            copied := false |}.
Proof.
  intros Hguard. unfold handleFile_run. rewrite Hguard.
  destruct (response_ok response_status); simpl; [done|].
  unfold handleFile_catch. simpl. do 2 f_equal.
  unfold js_or_undefined. destruct (json_get "error" data) as [v|].
  - by apply js_or_fallback.
  - done.
Qed.

(** X17. For a file that passes the guard, the client ends the upload showing
    the link [origin + "/v/" + stored name] exactly when the server answered
    200, and otherwise the server's error text ("Upload failed" when that
    text is empty); in both cases it is no longer uploading. *)
Theorem client_shows_server_answer (origin cwd uuid : string) (now : Z)
    (p : Parsed) (w : World) (file : BrowserFile) (st : AppState) :
  handleFile file = PostUpload file →
  let response := (post_api_upload cwd uuid now p w).1 in
  ∃ data : list (string * string),
    body response = Json data
    ∧ let st' := handleFile_run origin file
                   (FetchJson (status response) data) st in
      uploading st' = false
      ∧ (status response = 200 →
         ∃ f, p = ParseFile f
              ∧ videoUrl st'
                = Some (origin +:+ "/v/" +:+ storage_filename uuid f)
              ∧ error st' = None)
      ∧ (status response ≠ 200 →
         videoUrl st' = None
         ∧ error st'
           = Some (js_or_undefined (json_get "error" data) "Upload failed")
         ∧ error st' ≠ Some "").
Proof.
  intros Hguard response. unfold response, post_api_upload.
  assert (∀ (code : Z) (message : string),
            response_ok code = false →
            let data := [("error", message)] in
            let st' := handleFile_run origin file (FetchJson code data) st in
            uploading st' = false
            ∧ (code = 200 →
               ∃ f, p = ParseFile f
                    ∧ videoUrl st'
                      = Some (origin +:+ "/v/" +:+ storage_filename uuid f)
                    ∧ error st' = None)
            ∧ (code ≠ 200 →
               videoUrl st' = None
               ∧ error st'
                 = Some (js_or_undefined (json_get "error" data)
                           "Upload failed")
               ∧ error st' ≠ Some "")) as Hfail.
  { intros code message Hok data st'. unfold st'.
    rewrite handleFile_run_json by done. rewrite Hok. cbn [uploading videoUrl error].
    split; [done|]. split.
    - intros ->. done.
    - intros _. split; [done|]. split; [done|].
      unfold data. cbn. intros [= Hempty].
      by apply (js_or_nonempty message "Upload failed"). }
  destruct p as [[code message|message]| |f].
  - destruct code; cbn; eexists; (split; [reflexivity|]); by apply Hfail.
  - cbn. eexists. split; [reflexivity|]. by apply Hfail.
  - cbn. eexists. split; [reflexivity|]. by apply Hfail.
  - destruct (decide (fieldname f = "video")) as [Hfield|Hfield].
    + rewrite upload_single_file by done. cbn. eexists.
      split; [reflexivity|]. rewrite handleFile_run_json by done.
      cbn. split; [done|]. split; [|done].
      intros _. by exists f.
    + rewrite upload_single_unexpected by done. cbn. eexists.
      split; [reflexivity|]. by apply Hfail.
Qed.

Lemma client_shows_server_answer_witness :
  error (handleFile_run "http://192.168.1.20:3000"
           (mkBrowserFile "video/mp4" 1024 "beach.mp4")
           (FetchJson 413
              [("error", "File is too large. Maximum size is 500MB.")])
           (mkAppState false None None false))
  = Some "File is too large. Maximum size is 500MB.".
Proof.
  destruct (client_shows_server_answer "http://192.168.1.20:3000" "/srv/app"
              "3f2b8c1e-9a4d-4e6f-8b7a-1c2d3e4f5a6b" 0
              (ParseError (MulterError LIMIT_FILE_SIZE "File too large"))
              (mkWorld ∅ []) (mkBrowserFile "video/mp4" 1024 "beach.mp4")
              (mkAppState false None None false) eq_refl)
    as (data & Hdata & _ & _ & Herror).
  injection Hdata as <-.
  exact (proj1 (proj2 (Herror ltac:(discriminate)))).
Defined.

Lemma paste_handles_first_video_witness :
  let items :=
    [mkClipboardItem "text/plain" None;
     mkClipboardItem "video/mp4" None;
     mkClipboardItem "application/x-video"
       (Some (mkBrowserFile "application/x-video" 10 "a.bin"));
     mkClipboardItem "video/mp4"
       (Some (mkBrowserFile "video/mp4" 10 "b.mp4"))] in
  onPaste (Some items)
  = Some (SetError "Please upload a valid video file (MP4, WebM, MOV, etc).")
  ∧ match onPaste (Some items) with
    | Some result =>
        ∃ before item after file,
          items = before ++ item :: after
          ∧ Forall (λ it, ¬ paste_candidate it) before
          ∧ indexOf (item_type item) "video" ≠ -1
          ∧ item_file item = Some file
          ∧ result = handleFile file
    | None => Forall (λ it, ¬ paste_candidate it) items
    end.
Proof.
  intros items. split; [reflexivity|].
  exact (paste_handles_first_video items).
Defined.
